(** * GoCodeAnalyzer (tools/analyze_code.py): regex scanners and aggregation

    A shallow embedding of [GoCodeAnalyzer.analyze_file],
    [GoCodeAnalyzer.analyze_directory], [GoCodeAnalyzer.print_analysis] and
    [main].  The Python program recovers packages, imports, interfaces,
    structs and receiver methods from Go source text with eight regular
    expressions, stores them in five dictionaries and prints them as a
    report; the report is embedded as the list of the printed lines.

    - File text is a [list ascii]; dictionary keys and set elements are
      [string]s; dictionaries are [gmap]s and Python sets are [gset]s.  The
      classes [\w] and [\s] of the model are Python's on ASCII characters;
      outside the ASCII range Python's classes hold more characters (the
      letters, digits and blanks of Unicode), so the statements that depend on
      the classes are made for ASCII text ([ascii_text]).
    - The text of a file is what [open] and [read] returned, and a printed
      line is a line added to the output: a file that cannot be read or
      decoded, and an output stream that cannot encode a line, are outside the
      model, and nothing is stated about them.
    - The fragment of Python's [re] used by the source (literals, character
      classes, the quantifiers [*], [+], [?], the lazy [*?], and capture groups
      around quantified classes) is embedded as a backtracking matcher in
      continuation-passing style, with Python's priorities: a greedy
      quantifier tries the longest run first, a lazy one the shortest.
    - [d[k]] on a missing key and [m.group(n)] on a missing group raise; the
      code is embedded in an error monad so that the absence of exceptions is
      a theorem and not an assumption. *)

From Stdlib Require Import Ascii String.
From stdpp Require Import gmap strings list fin_maps sorting.

Open Scope string_scope.
Open Scope list_scope.
Open Scope stdpp_scope.

(* [set_solver] clears hypotheses it has already consumed. *)
#[local] Set Warnings "-clear-no-such-hyp".

(** ** Text *)

Abbreviation text := (list ascii).

(** A string literal as text, and a scanned piece of text as a Python [str]
    used as a key. *)
Definition chars (s : string) : text := list_ascii_of_string s.
Definition str (t : text) : string := string_of_list_ascii t.

(** ** The regular-expression fragment *)

Module Re.

(** Character classes.  [\w] and [\s] are those of Python's [str] patterns on
    the ASCII range: [\w] is [[a-zA-Z0-9_]]; [\s] is the characters for which
    [str.isspace] holds, that is codes 9-13, 28-31 and 32.  [CAny] is [.]
    under [re.DOTALL]. *)
Inductive cclass :=
| CChar (c : ascii)
| CWord
| CSpace
| CAny
| CNot (cs : list ascii).

Definition is_word (a : ascii) : bool :=
  let n := nat_of_ascii a in
  (((48 <=? n) && (n <=? 57)) || ((65 <=? n) && (n <=? 90))
   || ((97 <=? n) && (n <=? 122)) || (n =? 95))%nat.

Definition is_space (a : ascii) : bool :=
  let n := nat_of_ascii a in
  (((9 <=? n) && (n <=? 13)) || ((28 <=? n) && (n <=? 32)))%nat.

Definition in_class (c : cclass) (a : ascii) : bool :=
  match c with
  | CChar x => Ascii.eqb a x
  | CWord => is_word a
  | CSpace => is_space a
  | CAny => true
  | CNot cs => negb (existsb (Ascii.eqb a) cs)
  end.

(** Quantified classes, and patterns: a pattern is a sequence of atoms and of
    capture groups, a group holding atoms (no group of the source holds
    another one, and none stands under a quantifier). *)
Inductive atom :=
| One (c : cclass)
| Star (c : cclass)
| Plus (c : cclass)
| Opt (c : cclass)
| LazyStar (c : cclass).

Inductive tok :=
| T (a : atom)
| Grp (inner : list atom).

Definition pattern := list tok.

Definition lit (s : string) : pattern := map (fun c => T (One (CChar c))) (chars s).

Section Matcher.
Context {R : Type}.

(** [p*] in front of the continuation [k]: the longest run first, then one
    character less on each failure. *)
Fixpoint greedy (p : ascii -> bool) (k : text -> option R) (s : text) : option R :=
  match s with
  | a :: s' =>
      if p a then
        match greedy p k s' with
        | Some r => Some r
        | None => k s
        end
      else k s
  | [] => k s
  end.

(** [p*?] in front of [k]: the empty run first, then one character more. *)
Fixpoint lazy (p : ascii -> bool) (k : text -> option R) (s : text) : option R :=
  match k s with
  | Some r => Some r
  | None =>
      match s with
      | a :: s' => if p a then lazy p k s' else None
      | [] => None
      end
  end.

Definition matom (a : atom) (k : text -> option R) (s : text) : option R :=
  match a with
  | One c =>
      match s with
      | x :: s' => if in_class c x then k s' else None
      | [] => None
      end
  | Star c => greedy (in_class c) k s
  | Plus c =>
      match s with
      | x :: s' => if in_class c x then greedy (in_class c) k s' else None
      | [] => None
      end
  | Opt c =>
      match s with
      | x :: s' =>
          if in_class c x then
            match k s' with
            | Some r => Some r
            | None => k s
            end
          else k s
      | [] => k s
      end
  | LazyStar c => lazy (in_class c) k s
  end.

Fixpoint matoms (l : list atom) (k : text -> option R) (s : text) : option R :=
  match l with
  | [] => k s
  | a :: l' => matom a (matoms l' k) s
  end.
End Matcher.

(** What a group captured: the text between the position [s] where the group
    opened and the position [s'] where it closed. *)
Definition captured (s s' : text) : text := take (length s - length s') s.

(** A match object: the groups in order, and the text after the match. *)
Record rmatch := { groups : list text; after : text }.

(** Match at the start of [s]; [caps] are the groups closed so far, latest
    first. *)
Fixpoint mtoks (ts : pattern) (caps : list text) (s : text) : option rmatch :=
  match ts with
  | [] => Some {| groups := rev caps; after := s |}
  | T a :: ts' => matom a (mtoks ts' caps) s
  | Grp l :: ts' => matoms l (fun s' => mtoks ts' (captured s s' :: caps) s') s
  end.

Definition match_at (ts : pattern) (s : text) : option rmatch := mtoks ts [] s.

(** [re.search]: the match at the leftmost position that has one. *)
Fixpoint search (ts : pattern) (s : text) : option rmatch :=
  match match_at ts s with
  | Some m => Some m
  | None =>
      match s with
      | [] => None
      | _ :: s' => search ts s'
      end
  end.

(** [re.finditer]: the matches from left to right, each search starting where
    the previous match ended.  [skip] counts the positions that lie inside the
    previous match.  Every pattern of the source starts with a mandatory
    character, so no match is empty; after an empty match the scan would move
    on by one position. *)
Fixpoint finditer_from (ts : pattern) (skip : nat) (s : text) {struct s} : list rmatch :=
  match skip with
  | S n =>
      match s with
      | [] => []
      | _ :: s' => finditer_from ts n s'
      end
  | O =>
      match match_at ts s with
      | Some m =>
          m :: match s with
               | [] => []
               | _ :: s' => finditer_from ts (length s - length (after m) - 1) s'
               end
      | None =>
          match s with
          | [] => []
          | _ :: s' => finditer_from ts 0 s'
          end
      end
  end.

Definition finditer (ts : pattern) (s : text) : list rmatch := finditer_from ts 0 s.

End Re.

Import Re.

(** ** The eight patterns of [analyze_file] *)

(** [package\s+(\w+)] *)
Definition package_re : pattern :=
  lit "package" ++ [T (Plus CSpace); Grp [Plus CWord]].

(** [import\s*\(\s*(.*?)\s*\)] with [re.DOTALL] *)
Definition import_re : pattern :=
  lit "import" ++ [T (Star CSpace)] ++ lit "(" ++
  [T (Star CSpace); Grp [LazyStar CAny]; T (Star CSpace)] ++ lit ")".

(** The double quote, code 34. *)
Definition dquote : ascii := ascii_of_nat 34.

(** [q([^q]+)q], where [q] stands for the double quote. *)
Definition quoted_re : pattern :=
  [T (One (CChar dquote)); Grp [Plus (CNot [dquote])]; T (One (CChar dquote))].

(** [type\s+(\w+)\s+interface\s*{([^}]+)}] *)
Definition interface_re : pattern :=
  lit "type" ++ [T (Plus CSpace); Grp [Plus CWord]; T (Plus CSpace)] ++
  lit "interface" ++ [T (Star CSpace)] ++ lit "{" ++
  [Grp [Plus (CNot ["}"%char])]] ++ lit "}".

(** [(\w+)\([^)]*\)[^{]*] *)
Definition signature_re : pattern :=
  [Grp [Plus CWord]] ++ lit "(" ++ [T (Star (CNot [")"%char]))] ++ lit ")" ++
  [T (Star (CNot ["{"%char]))].

(** [type\s+(\w+)\s+struct\s*{([^}]+)}] *)
Definition struct_re : pattern :=
  lit "type" ++ [T (Plus CSpace); Grp [Plus CWord]; T (Plus CSpace)] ++
  lit "struct" ++ [T (Star CSpace)] ++ lit "{" ++
  [Grp [Plus (CNot ["}"%char])]] ++ lit "}".

(** [(\w+)\s+[^,\n]+] *)
Definition field_re : pattern :=
  [Grp [Plus CWord]; T (Plus CSpace); T (Plus (CNot [","%char; "010"%char]))].

(** [func\s*\((\w+)\s+\*?(\w+)\)\s+(\w+)] *)
Definition method_re : pattern :=
  lit "func" ++ [T (Star CSpace)] ++ lit "(" ++
  [Grp [Plus CWord]; T (Plus CSpace); T (Opt (CChar "*")); Grp [Plus CWord]] ++
  lit ")" ++ [T (Plus CSpace); Grp [Plus CWord]].

(** ** Exceptions *)

(** What the statements of [analyze_file] can raise: a dictionary read at a
    missing key, a group number the pattern does not have. *)
Inductive exn :=
| KeyError (k : string)
| IndexError.

Inductive result (A : Type) :=
| Ok (a : A)
| Raise (e : exn).
Arguments Ok {A} a.
Arguments Raise {A} e.

(** The error monad, with stdpp's notation [x ← r; k]. *)
#[global] Instance result_bind : MBind result := fun A B f r =>
  match r with
  | Ok a => f a
  | Raise e => Raise e
  end.

(** A [for] loop whose body may raise. *)
Fixpoint for_each {A S} (l : list A) (body : S -> A -> result S) (s : S) : result S :=
  match l with
  | [] => Ok s
  | x :: l' => s' ← body s x; for_each l' body s'
  end.

(** [m.group(n)] for [n >= 1]. *)
Definition group (m : rmatch) (n : nat) : result text :=
  match groups m !! pred n with
  | Some g => Ok g
  | None => Raise IndexError
  end.

(** [d[k]] *)
Definition getitem {V} (d : gmap string V) (k : string) : result V :=
  match d !! k with
  | Some v => Ok v
  | None => Raise (KeyError k)
  end.

(** [re.findall] for a pattern with one group: the texts of that group. *)
Definition findall (ts : pattern) (s : text) : list text :=
  map (fun m => default [] (groups m !! 0)) (finditer ts s).

(** ** The analyzer *)

Record GoCodeAnalyzer := {
  root_dir : string;
  packages : gmap string (gset string);
  interfaces : gmap string (list string);
  structs : gmap string (list string);
  methods : gmap string (list string);
  imports : gmap string (gset string)
}.

(** [__init__] *)
Definition init (root : string) : GoCodeAnalyzer :=
  {| root_dir := root; packages := ∅; interfaces := ∅; structs := ∅;
     methods := ∅; imports := ∅ |}.

Definition set_packages (self : GoCodeAnalyzer) d :=
  {| root_dir := root_dir self; packages := d; interfaces := interfaces self;
     structs := structs self; methods := methods self; imports := imports self |}.
Definition set_interfaces (self : GoCodeAnalyzer) d :=
  {| root_dir := root_dir self; packages := packages self; interfaces := d;
     structs := structs self; methods := methods self; imports := imports self |}.
Definition set_structs (self : GoCodeAnalyzer) d :=
  {| root_dir := root_dir self; packages := packages self; interfaces := interfaces self;
     structs := d; methods := methods self; imports := imports self |}.
Definition set_methods (self : GoCodeAnalyzer) d :=
  {| root_dir := root_dir self; packages := packages self; interfaces := interfaces self;
     structs := structs self; methods := d; imports := imports self |}.
Definition set_imports (self : GoCodeAnalyzer) d :=
  {| root_dir := root_dir self; packages := packages self; interfaces := interfaces self;
     structs := structs self; methods := methods self; imports := d |}.

(** [file.endswith(suffix)] *)
Definition endswith (file suffix : string) : bool :=
  bool_decide (chars suffix `suffix_of` chars file).

Section Analyzer.
(** [os.path.relpath] and [os.path.join] are library functions on paths,
    taken as total; the analysis does not depend on what they compute. *)
Variable relpath : string -> string -> string.
Variable path_join : string -> string -> string.

(** Lines 19-26. *)
Definition scan_package (self : GoCodeAnalyzer) (file_path : string) (content : text)
  : result GoCodeAnalyzer :=
  match search package_re content with
  | Some package_match =>
      package_name ← group package_match 1;
      let package_name := str package_name in
      let rel_path := relpath file_path (root_dir self) in
      let d :=
        if decide (package_name ∈ dom (packages self))
        then packages self
        else <[package_name := ∅]> (packages self) in
      files ← getitem d package_name;
      Ok (set_packages self (<[package_name := files ∪ {[rel_path]}]> d))
  | None => Ok self
  end.

(** Lines 28-35. *)
Definition scan_imports (self : GoCodeAnalyzer) (file_path : string) (content : text)
  : result GoCodeAnalyzer :=
  let import_matches := findall import_re content in
  match import_matches with
  | _ :: _ =>
      found ← for_each import_matches
                 (fun found import_block =>
                    for_each (finditer quoted_re import_block)
                      (fun found imp => p ← group imp 1; Ok (found ∪ {[str p]}))
                      found)
                 (∅ : gset string);
      Ok (set_imports self (<[file_path := found]> (imports self)))
  | [] => Ok self
  end.

(** The body of the loops of lines 39-45 and 49-55: the name is group 1,
    the entries are group 1 of every match of [entry_re] in group 2. *)
Definition scan_decl (entry_re : pattern) (m : rmatch) : result (string * list string) :=
  name ← group m 1;
  block ← group m 2;
  entries ← for_each (finditer entry_re block)
               (fun entries e => x ← group e 1; Ok (entries ++ [str x]))
               [];
  Ok (str name, entries).

(** Lines 37-45. *)
Definition scan_interfaces (self : GoCodeAnalyzer) (content : text) : result GoCodeAnalyzer :=
  for_each (finditer interface_re content)
    (fun self m =>
       '(interface_name, methods) ← scan_decl signature_re m;
       Ok (set_interfaces self (<[interface_name := methods]> (interfaces self))))
    self.

(** Lines 47-55. *)
Definition scan_structs (self : GoCodeAnalyzer) (content : text) : result GoCodeAnalyzer :=
  for_each (finditer struct_re content)
    (fun self m =>
       '(struct_name, fields) ← scan_decl field_re m;
       Ok (set_structs self (<[struct_name := fields]> (structs self))))
    self.

(** Lines 57-65. *)
Definition scan_methods (self : GoCodeAnalyzer) (content : text) : result GoCodeAnalyzer :=
  for_each (finditer method_re content)
    (fun self m =>
       receiver_name ← group m 1;
       type_name ← group m 2;
       method_name ← group m 3;
       let type_name := str type_name in
       let d :=
         if decide (type_name ∈ dom (methods self))
         then methods self
         else <[type_name := []]> (methods self) in
       l ← getitem d type_name;
       Ok (set_methods self (<[type_name := l ++ [str method_name]]> d)))
    self.

(** [analyze_file]; [content] is what [f.read()] returned for [file_path]. *)
Definition analyze_file (self : GoCodeAnalyzer) (file_path : string) (content : text)
  : result GoCodeAnalyzer :=
  self ← scan_package self file_path content;
  self ← scan_imports self file_path content;
  self ← scan_interfaces self content;
  self ← scan_structs self content;
  scan_methods self content.

(** [analyze_directory].  [walk] is what [os.walk(self.root_dir)] yields, in
    its order: each directory with its files, a file being its name and the
    text that reading it gives (every file the analysis opens is taken to be
    readable). *)
Definition go_files (walk : list (string * list (string * text))) : list (string * text) :=
  '(root, files) ← walk;
  '(file, content) ← files;
  if endswith file ".go" then [(path_join root file, content)] else [].

Definition analyze_directory (self : GoCodeAnalyzer)
    (walk : list (string * list (string * text))) : result GoCodeAnalyzer :=
  for_each walk
    (fun self '(root, files) =>
       for_each files
         (fun self '(file, content) =>
            if endswith file ".go"
            then analyze_file self (path_join root file) content
            else Ok self)
         self)
    self.
End Analyzer.

(** ** What the patterns denote *)

(** The matcher is specified against a declarative reading of the patterns:
    [pat_den ts w caps] says that [ts] can consume exactly [w] with the groups
    [caps].  The reading has no priorities; [match_at] picks one of the
    readings, the one Python's backtracking reaches first. *)

Definition all_in (c : cclass) (w : text) : Prop :=
  Forall (fun a => in_class c a = true) w.

(** The next character, if any, is outside the class: a run of the class
    cannot be extended into [s]. *)
Definition stops (c : cclass) (s : text) : Prop :=
  match s with
  | [] => True
  | x :: _ => in_class c x = false
  end.

Definition atom_den (a : atom) (w : text) : Prop :=
  match a with
  | One c => exists x, w = [x] /\ in_class c x = true
  | Star c | LazyStar c => all_in c w
  | Plus c => w <> [] /\ all_in c w
  | Opt c => w = [] \/ exists x, w = [x] /\ in_class c x = true
  end.

Fixpoint atoms_den (l : list atom) (w : text) : Prop :=
  match l with
  | [] => w = []
  | a :: l' => exists w1 w2, w = w1 ++ w2 /\ atom_den a w1 /\ atoms_den l' w2
  end.

Fixpoint pat_den (ts : pattern) (w : text) (caps : list text) : Prop :=
  match ts with
  | [] => w = [] /\ caps = []
  | T a :: ts' => exists w1 w2, w = w1 ++ w2 /\ atom_den a w1 /\ pat_den ts' w2 caps
  | Grp l :: ts' =>
      exists w1 w2 caps',
        w = w1 ++ w2 /\ atoms_den l w1 /\ pat_den ts' w2 caps' /\ caps = w1 :: caps'
  end.

(** The number of groups of a pattern. *)
Fixpoint ngroups (ts : pattern) : nat :=
  match ts with
  | [] => 0
  | T _ :: ts' => ngroups ts'
  | Grp _ :: ts' => S (ngroups ts')
  end.

(** The pattern starts with a character it cannot do without. *)
Definition mandatory (ts : pattern) : bool :=
  match ts with
  | T (One _) :: _ | T (Plus _) :: _ => true
  | Grp (One _ :: _) :: _ | Grp (Plus _ :: _) :: _ => true
  | _ => false
  end.

Definition source_patterns : list pattern :=
  [package_re; import_re; quoted_re; interface_re; signature_re; struct_re;
   field_re; method_re].

(** The shape shared by [interface_re] and [struct_re]. *)
Definition decl_re (kw : string) : pattern :=
  lit "type" ++ [T (Plus CSpace); Grp [Plus CWord]; T (Plus CSpace)] ++
  lit kw ++ [T (Star CSpace)] ++ lit "{" ++
  [Grp [Plus (CNot ["}"%char])]] ++ lit "}".

(** ** Pieces of source text *)

(** [rest] starts with the keyword [package], whitespace and an identifier. *)
Definition package_decl (rest : text) : Prop :=
  exists ws id post,
    rest = chars "package" ++ ws ++ id ++ post /\
    ws <> [] /\ all_in CSpace ws /\ id <> [] /\ all_in CWord id.

(** [rest] starts with the keyword [import], optional whitespace, an opening
    parenthesis and, somewhere after it, a closing one. *)
Definition import_block (rest : text) : Prop :=
  exists ws mid post,
    rest = chars "import" ++ ws ++ chars "(" ++ mid ++ chars ")" ++ post /\
    all_in CSpace ws.

(** An empty-bodied declaration [type <name> <kw> {}]. *)
Definition empty_decl (ws1 name ws2 : text) (kw : string) (ws3 : text) : text :=
  chars "type" ++ ws1 ++ name ++ ws2 ++ chars kw ++ ws3 ++ chars "{}".

(** A receiver-method signature [func (<v> <star><ty>) <mn>], [star] being the
    pointer marker or nothing. *)
Definition signature (v star ty mn : text) : text :=
  chars "func (" ++ v ++ chars " " ++ star ++ ty ++ chars ") " ++ mn.

(** ** What the scanners find, and the analyzer after a file *)

(** Group [i+1] of a match, the empty text when the pattern has no such
    group. *)
Definition grp (m : rmatch) (i : nat) : text := default [] (groups m !! i).

(** The package of a file: group 1 of the first match of [package_re]. *)
Definition declared_package (content : text) : option string :=
  (fun m => str (grp m 0)) <$> search package_re content.

(** The quoted strings inside the matched import blocks, in order. *)
Definition import_paths (content : text) : list string :=
  block ← findall import_re content;
  (fun imp => str (grp imp 0)) <$> finditer quoted_re block.

(** The name and the entries of a declaration match. *)
Definition decl_of (entry_re : pattern) (m : rmatch) : string * list string :=
  (str (grp m 0), (fun e => str (grp e 0)) <$> finditer entry_re (grp m 1)).

Definition interface_decls (content : text) : list (string * list string) :=
  decl_of signature_re <$> finditer interface_re content.

Definition struct_decls (content : text) : list (string * list string) :=
  decl_of field_re <$> finditer struct_re content.

(** Receiver type and method name of every match of [method_re]. *)
Definition method_sigs (content : text) : list (string * string) :=
  (fun m => (str (grp m 1), str (grp m 2))) <$> finditer method_re content.

(** The method names of the signatures with receiver type [ty], in order. *)
Definition methods_for (ty : string) (sigs : list (string * string)) : list string :=
  (filter (fun e => e.1 = ty) sigs).*2.

Definition add_file (d : gmap string (gset string)) (name rel_path : string) :=
  <[name := default ∅ (d !! name) ∪ {[rel_path]}]> d.

Definition put_decl (d : gmap string (list string)) (e : string * list string) :=
  <[e.1 := e.2]> d.

Definition append_method (d : gmap string (list string)) (e : string * string) :=
  <[e.1 := default [] (d !! e.1) ++ [e.2]]> d.

(** The analyzer [analyze_file] returns, in closed form ([analyze_file_Ok]
    below proves that it is the one). *)
Definition analyze_file_result (relpath : string -> string -> string)
    (self : GoCodeAnalyzer) (file_path : string) (content : text) : GoCodeAnalyzer :=
  {| root_dir := root_dir self;
     packages :=
       match declared_package content with
       | Some name => add_file (packages self) name (relpath file_path (root_dir self))
       | None => packages self
       end;
     interfaces := foldl put_decl (interfaces self) (interface_decls content);
     structs := foldl put_decl (structs self) (struct_decls content);
     methods := foldl append_method (methods self) (method_sigs content);
     imports :=
       match findall import_re content with
       | [] => imports self
       | _ :: _ => <[file_path := list_to_set (import_paths content)]> (imports self)
       end |}.

Definition visit (relpath : string -> string -> string)
    (self : GoCodeAnalyzer) (f : string * text) : GoCodeAnalyzer :=
  analyze_file_result relpath self f.1 f.2.

(** What two analyzers share when the same files were visited in different
    orders. *)
Definition agree (s1 s2 : GoCodeAnalyzer) : Prop :=
  root_dir s1 = root_dir s2 /\
  packages s1 = packages s2 /\
  imports s1 = imports s2 /\
  dom (methods s1) = dom (methods s2) /\
  (forall ty, default [] (methods s1 !! ty) ≡ₚ default [] (methods s2 !! ty)) /\
  dom (interfaces s1) = dom (interfaces s2) /\
  dom (structs s1) = dom (structs s2).

(** ** Example inputs *)

(** [os.path.join] and [os.path.relpath] on the plain paths of the examples
    (no [.] or [..] component, [file_path] below [root]). *)
Definition example_join (root file : string) : string :=
  String.append root (String.append "/" file).

Definition example_relpath (file_path root : string) : string :=
  let r := String.append root "/" in
  if String.prefix r file_path
  then String.substring (String.length r) (String.length file_path) file_path
  else file_path.

Definition shape_go : text :=
  chars "type Shape interface { Area() float64; Perimeter() float64 }".

Definition foo_a_go : text :=
  chars "package foo

type Foo struct {
	A int
}
".

Definition foo_b_go : text :=
  chars "// second file
package foo

type Foo struct {
	B string
}
".

Definition walk_ab : list (string * list (string * text)) :=
  [("/src", [("a.go", foo_a_go); ("README.md", chars "package docs"); ("b.go", foo_b_go)])].

Definition walk_ba : list (string * list (string * text)) :=
  [("/src", [("b.go", foo_b_go); ("a.go", foo_a_go)])].

Definition empty_import_go : text := chars "import ( )".

(** [quoted s] is [s] between double quotes. *)
Definition quoted (s : string) : text := dquote :: chars s ++ [dquote].

Definition square_go : text :=
  chars "package shapes

import (
	" ++ quoted "fmt" ++ chars "
	" ++ quoted "os" ++ chars "
)

type Square struct {
	Side float64
	Name string
}

func (s *Square) Area() float64 { return s.Side * s.Side }

func (s Square) Perimeter() float64 { return 4 * s.Side }
".

Definition shadowed_go : text := chars "func (a b) func (s *Square) Area()".

(** ** Definitions for the further properties *)

(** The keyword [kw] occurs somewhere in [content]. *)
Definition occurs (kw : string) (content : text) : Prop :=
  exists pre post, content = pre ++ chars kw ++ post.

(** The walk without the files [analyze_directory] skips. *)
Definition only_go (walk : list (string * list (string * text)))
  : list (string * list (string * text)) :=
  (fun d => (d.1, filter (fun f => endswith f.1 ".go" = true) d.2)) <$> walk.

(** What a file alone holds for a struct or interface name: the entries of
    its last declaration of that name. *)
Definition file_structs (content : text) : gmap string (list string) :=
  foldl put_decl ∅ (struct_decls content).

Definition file_interfaces (content : text) : gmap string (list string) :=
  foldl put_decl ∅ (interface_decls content).

(** Nothing that [s] holds is missing from [s']. *)
Definition grows (s s' : GoCodeAnalyzer) : Prop :=
  root_dir s' = root_dir s /\
  (forall k files, packages s !! k = Some files ->
     exists files', packages s' !! k = Some files' /\ files ⊆ files') /\
  (forall k l, methods s !! k = Some l -> exists l', methods s' !! k = Some (l ++ l')) /\
  dom (imports s) ⊆ dom (imports s') /\
  dom (interfaces s) ⊆ dom (interfaces s') /\
  dom (structs s) ⊆ dom (structs s').

(** A non-empty run of [[A-Za-z0-9_]]. *)
Definition identifier (k : string) : Prop :=
  exists w, k = str w /\ w <> [] /\ all_in CWord w.

(** A non-empty text without double quote or closing parenthesis. *)
Definition plain_path (k : string) : Prop :=
  exists w, k = str w /\ w <> [] /\ (dquote ∉ w) /\ (")"%char ∉ w).

(** ** The report *)

(** [sorted] on strings: ascending code points, a proper prefix first. *)
Definition sorted (l : list string) : list string := merge_sort String.le l.

(** [sorted(d.items())]: the keys of a dictionary are distinct, so that the
    tuples are ordered by their keys alone. *)
Definition key_le {V} (x y : string * V) : Prop := String.le x.1 y.1.

#[global] Instance key_le_dec {V} : RelDecision (@key_le V) :=
  fun x y => decide (String.le x.1 y.1).

Definition sorted_items {V} (d : gmap string V) : list (string * V) :=
  merge_sort key_le (map_to_list d).

(** [s.replace(old, '')]: every occurrence of [old], found from left to right
    without overlap, is dropped; [skip] counts the characters of the
    occurrence being dropped. *)
Fixpoint remove_from (old : text) (skip : nat) (s : text) {struct s} : text :=
  match s with
  | [] => []
  | a :: s' =>
      match skip with
      | S n => remove_from old n s'
      | O =>
          if bool_decide (old `prefix_of` s)
          then remove_from old (length old - 1) s'
          else a :: remove_from old 0 s'
      end
  end.

Definition str_remove (s old : string) : string :=
  if decide (old = "") then s else str (remove_from (chars old) 0 (chars s)).

(** [' ' * n] *)
Definition spaces (n : nat) : string := str (replicate n " "%char).

Definition nl : string := String "010" "".

(** [print(line)], the output being the lines printed so far; writing to the
    stream is taken to succeed. *)
Definition print (out : list string) (line : string) : list string := out ++ [line].

Section Report.
(** [os.path.relpath] and [os.path.basename] are library functions on paths;
    [os.sep] is one character. *)
Variable relpath : string -> string -> string.
Variable basename : string -> string.
Variable sep : ascii.

(** [s.count(os.sep)] *)
Definition count_sep (s : string) : nat :=
  length (filter (fun a => a = sep) (chars s)).

(** Line 79. *)
Definition tree_level (self : GoCodeAnalyzer) (root : string) : nat :=
  count_sep (str_remove root (root_dir self)).

(** Lines 77-85; [walk] is what the second [os.walk(self.root_dir)] yields. *)
Definition print_tree (self : GoCodeAnalyzer)
    (walk : list (string * list (string * text))) (out : list string)
  : result (list string) :=
  for_each walk
    (fun out '(root, files) =>
       let level := tree_level self root in
       let indent := spaces (4 * level) in
       let out := print out (indent +:+ basename root +:+ "/") in
       let subindent := spaces (4 * (level + 1)) in
       for_each (sorted files.*1)
         (fun out f =>
            if endswith f ".go" then Ok (print out (subindent +:+ f)) else Ok out)
         out)
    out.

(** Lines 87-91. *)
Definition print_packages (self : GoCodeAnalyzer) (out : list string)
  : result (list string) :=
  for_each (sorted_items (packages self))
    (fun out '(package, files) =>
       let out := print out (nl +:+ package +:+ ":") in
       for_each (sorted (elements files))
         (fun out file => Ok (print out ("    " +:+ file))) out)
    out.

(** Lines 93-97. *)
Definition print_interfaces (self : GoCodeAnalyzer) (out : list string)
  : result (list string) :=
  for_each (sorted_items (interfaces self))
    (fun out '(interface, methods) =>
       let out := print out (nl +:+ interface +:+ ":") in
       for_each (sorted methods)
         (fun out method => Ok (print out ("    " +:+ method))) out)
    out.

(** Lines 99-108. *)
Definition print_structs (self : GoCodeAnalyzer) (out : list string)
  : result (list string) :=
  for_each (sorted_items (methods self))
    (fun out '(struct, methods) =>
       if decide (struct ∈ dom (structs self)) then
         let out := print out (nl +:+ struct +:+ ":") in
         let out := print out "  Fields:" in
         fields ← getitem (structs self) struct;
         out ← for_each (sorted fields)
                 (fun out field => Ok (print out ("    " +:+ field))) out;
         let out := print out "  Methods:" in
         for_each (sorted methods)
           (fun out method => Ok (print out ("    " +:+ method))) out
       else Ok out)
    out.

(** Lines 110-115; a set is true when it is not empty. *)
Definition print_imports (self : GoCodeAnalyzer) (out : list string)
  : result (list string) :=
  for_each (sorted_items (imports self))
    (fun out '(file, imports) =>
       if decide (imports ≠ ∅) then
         let out := print out (nl +:+ relpath file (root_dir self) +:+ ":") in
         for_each (sorted (elements imports))
           (fun out imp => Ok (print out ("    " +:+ imp))) out
       else Ok out)
    out.

(** [print_analysis]: the lines it prints. *)
Definition print_analysis (self : GoCodeAnalyzer)
    (walk : list (string * list (string * text))) : result (list string) :=
  let out := print [] (nl +:+ "=== Project Structure Analysis ===" +:+ nl) in
  let out := print out "Directory Structure:" in
  out ← print_tree self walk out;
  let out := print out (nl +:+ "Packages and Their Files:") in
  out ← print_packages self out;
  let out := print out (nl +:+ "Interfaces and Their Methods:") in
  out ← print_interfaces self out;
  let out := print out (nl +:+ "Structs and Their Methods:") in
  out ← print_structs self out;
  let out := print out (nl +:+ "Package Dependencies:") in
  print_imports self out.

(** [main]: the analyzer over the project root, then the report. *)
Definition project_root : string := "/Users/damirmukimov/projects/mcp/mini".

Definition main (path_join : string -> string -> string)
    (walk : list (string * list (string * text))) : result (list string) :=
  analyzer ← analyze_directory relpath path_join (init project_root) walk;
  print_analysis analyzer walk.
End Report.

(** The header lines of a report section: those that start with a newline. *)
Definition is_header (line : string) : Prop :=
  match line with
  | String c _ => c = "010"%char
  | EmptyString => False
  end.

#[global] Instance is_header_dec line : Decision (is_header line) :=
  match line with
  | String c _ => decide (c = "010"%char)
  | EmptyString => right (fun H => H)
  end.

Definition headers (out : list string) : list string := filter is_header out.

Definition header (name : string) : string := nl +:+ name +:+ ":".
Definition item (name : string) : string := "    " +:+ name.

Section ReportLines.
Variable relpath : string -> string -> string.
Variable basename : string -> string.
Variable sep : ascii.

(** The lines of each section, in closed form. *)
Definition tree_lines (self : GoCodeAnalyzer)
    (walk : list (string * list (string * text))) : list string :=
  d ← walk;
  (spaces (4 * tree_level sep self d.1) +:+ basename d.1 +:+ "/") ::
  ((fun f => spaces (4 * (tree_level sep self d.1 + 1)) +:+ f) <$>
     filter (fun f => endswith f ".go" = true) (sorted d.2.*1)).

Definition dict_lines (d : gmap string (list string)) : list string :=
  e ← sorted_items d; header e.1 :: (item <$> sorted e.2).

Definition packages_lines (self : GoCodeAnalyzer) : list string :=
  e ← sorted_items (packages self); header e.1 :: (item <$> sorted (elements e.2)).

Definition structs_lines (self : GoCodeAnalyzer) : list string :=
  e ← sorted_items (methods self);
  match structs self !! e.1 with
  | Some fields =>
      [header e.1; "  Fields:"] ++ (item <$> sorted fields) ++
      ["  Methods:"] ++ (item <$> sorted e.2)
  | None => []
  end.

Definition imports_lines (self : GoCodeAnalyzer) : list string :=
  e ← sorted_items (imports self);
  if decide (e.2 ≠ ∅)
  then header (relpath e.1 (root_dir self)) :: (item <$> sorted (elements e.2))
  else [].
End ReportLines.

(** ** Text in the ASCII range, positions of a scan *)

(** Every character of the text has a code below 128.  On such text the
    classes [is_word] and [is_space] are Python's [\w] and [\s]; outside the
    ASCII range Python's classes hold more characters, and the statements that
    depend on the classes are made for ASCII text. *)
Definition ascii_text (s : text) : Prop :=
  Forall (fun a => nat_of_ascii a < 128) s.

(** The scan of [finditer ts content] stands at [rest]: it starts at the
    whole text, moves on by one character where the pattern does not match,
    and moves over a match where it does.  A position inside a match is not
    one the scan stands at. *)
Inductive reaches (ts : pattern) (content : text) : text -> Prop :=
| reaches_start : reaches ts content content
| reaches_step a rest :
    reaches ts content (a :: rest) -> match_at ts (a :: rest) = None ->
    reaches ts content rest
| reaches_match rest m :
    reaches ts content rest -> match_at ts rest = Some m ->
    length (after m) < length rest ->
    reaches ts content (after m).

(** The scan runs over [n] characters without a match. *)
Fixpoint no_match_in (ts : pattern) (n : nat) (s : text) : bool :=
  match n, s with
  | S n', _ :: s' =>
      match match_at ts s with
      | None => no_match_in ts n' s'
      | Some _ => false
      end
  | _, _ => true
  end.


(** The entries of a body: group 1 of every match of [entry_re] in it. *)
Definition entries (entry_re : pattern) (body : text) : list string :=
  (fun e => str (grp e 0)) <$> finditer entry_re body.

Definition second_go : text :=
  chars "package shapes

type Square struct {
	Side float64
}

type Circle struct {
	Radius float64
}

func (s *Square) Area() float64 { return s.Side * s.Side }

func (c Circle) Area() float64 { return 3 * c.Radius * c.Radius }

func (s Square) Perimeter() float64 { return 4 * s.Side }
".

(** An import block [import ( <block> )], with the whitespace around its
    parts. *)
Definition import_text (ws1 ws2 block ws3 : text) : text :=
  chars "import" ++ ws1 ++ chars "(" ++ ws2 ++ block ++ ws3 ++ chars ")".

(** Quoted strings, each after a text without a double quote: an item is the
    pair of the text [sep] before the string and of the string [p], and the
    items stand one after the other, each [p] between two double quotes. *)
Definition quoted_items (items : list (text * text)) : text :=
  e ← items; e.1 ++ dquote :: e.2 ++ [dquote].

(** The entry of a name after a list of files each of which may define it:
    the one of the last file that does. *)
Definition last_defined {A V} (get : A -> option V) (acc : option V) (l : list A)
  : option V :=
  foldl (fun acc x => match get x with Some v => Some v | None => acc end) acc l.

Definition order_a_go : text :=
  chars "package foo

type Foo struct {
	A int
}

type Bar interface {
	Read() error
}

func (f Foo) First() {}
".

Definition order_b_go : text :=
  chars "package foo

type Foo struct {
	B string
}

type Bar interface {
	Write() error
}

func (f Foo) Second() {}
".

Definition walk_order_ab : list (string * list (string * text)) :=
  [("/src", [("a.go", order_a_go); ("b.go", order_b_go)])].

Definition walk_order_ba : list (string * list (string * text)) :=
  [("/src", [("b.go", order_b_go); ("a.go", order_a_go)])].

(** ** Proof steps *)

(** A literal text lies in a class. *)
Ltac class_run :=
  unfold all_in; repeat first [apply Forall_nil_2 | apply Forall_cons_2; [reflexivity|]].

(** A literal text is ASCII. *)
Ltac ascii_run := apply (bool_decide_unpack _); vm_compute; exact I.

(** * Facts about the matcher *)

(** ** The matcher against the declarative reading

    Soundness: a match consumes a text the pattern denotes, with the groups of
    that reading.  Completeness: where a reading exists, the matcher finds a
    match (backtracking tries every split). *)

Section MatcherFacts.
Context {R : Type}.
Implicit Types (k : text -> option R) (s w : text).

Lemma greedy_sound p k s r :
  greedy p k s = Some r ->
  exists w s', s = w ++ s' /\ Forall (fun a => p a = true) w /\ k s' = Some r.
Proof.
  induction s as [|a s IH]; simpl; intros H.
  - exists [], []. auto.
  - destruct (p a) eqn:Hp.
    + destruct (greedy p k s) as [r'|] eqn:Hg.
      * destruct (IH H) as (w & s' & -> & Hw & Hk).
        exists (a :: w), s'. auto.
      * exists [], (a :: s). auto.
    + exists [], (a :: s). auto.
Qed.

Lemma greedy_complete p k w s' :
  Forall (fun a => p a = true) w -> is_Some (k s') -> is_Some (greedy p k (w ++ s')).
Proof.
  intros Hw Hk. induction Hw as [|a w Ha Hw IH]; simpl.
  - destruct s' as [|b s']; simpl; [done|].
    destruct (p b); [|done]. destruct (greedy p k s'); [eauto|done].
  - rewrite Ha. destruct IH as [r ->]. eauto.
Qed.

Lemma lazy_sound p k s r :
  lazy p k s = Some r ->
  exists w s', s = w ++ s' /\ Forall (fun a => p a = true) w /\ k s' = Some r.
Proof.
  induction s as [|a s IH]; simpl; intros H.
  - destruct (k []) eqn:Hk; [|done]. exists [], []. simplify_eq. auto.
  - destruct (k (a :: s)) eqn:Hk.
    + exists [], (a :: s). simplify_eq. auto.
    + destruct (p a) eqn:Hp; [|done].
      destruct (IH H) as (w & s' & -> & Hw & Hk').
      exists (a :: w), s'. auto.
Qed.

Lemma lazy_complete p k w s' :
  Forall (fun a => p a = true) w -> is_Some (k s') -> is_Some (lazy p k (w ++ s')).
Proof.
  intros Hw Hk. induction Hw as [|a w Ha Hw IH]; simpl.
  - destruct s' as [|b s']; simpl; destruct Hk as [r ->]; eauto.
  - destruct (k (a :: w ++ s')); [eauto|]. by rewrite Ha.
Qed.

Lemma matom_sound a k s r :
  matom a k s = Some r -> exists w s', s = w ++ s' /\ atom_den a w /\ k s' = Some r.
Proof.
  destruct a as [c|c|c|c|c]; simpl.
  - destruct s as [|x s]; [done|]. destruct (in_class c x) eqn:Hx; [|done].
    intros Hk. exists [x], s. eauto 6.
  - apply greedy_sound.
  - destruct s as [|x s]; [done|]. destruct (in_class c x) eqn:Hx; [|done].
    intros (w & s' & -> & Hw & Hk)%greedy_sound.
    exists (x :: w), s'. split; [done|]. split; [|done]. split; [done|]. by constructor.
  - destruct s as [|x s]; [intros; exists [], []; auto|].
    destruct (in_class c x) eqn:Hx.
    + destruct (k s) eqn:Hk; intros H; simplify_eq.
      * exists [x], s. eauto 8.
      * exists [], (x :: s). auto.
    + intros H. exists [], (x :: s). auto.
  - apply lazy_sound.
Qed.

Lemma matom_complete a k w s' :
  atom_den a w -> is_Some (k s') -> is_Some (matom a k (w ++ s')).
Proof.
  destruct a as [c|c|c|c|c]; simpl.
  - intros (x & -> & Hx) Hk. simpl. by rewrite Hx.
  - apply greedy_complete.
  - intros [Hne Hw] Hk. destruct Hw as [|x w Hx Hw]; [done|]. simpl. rewrite Hx.
    by apply greedy_complete.
  - intros [->|(x & -> & Hx)] Hk; simpl.
    + destruct s' as [|b s']; [done|]. destruct (in_class c b); [|done].
      destruct (k s'); [eauto|done].
    + rewrite Hx. destruct Hk as [r ->]. eauto.
  - apply lazy_complete.
Qed.

Lemma matoms_sound l k s r :
  matoms l k s = Some r -> exists w s', s = w ++ s' /\ atoms_den l w /\ k s' = Some r.
Proof.
  revert k s. induction l as [|a l IH]; simpl; intros k s H.
  - exists [], s. auto.
  - apply matom_sound in H as (w1 & s1 & -> & Ha & H).
    apply IH in H as (w2 & s2 & -> & Hl & H).
    exists (w1 ++ w2), s2. rewrite (assoc_L (++)). eauto 8.
Qed.

Lemma matoms_complete l k w s' :
  atoms_den l w -> is_Some (k s') -> is_Some (matoms l k (w ++ s')).
Proof.
  revert w. induction l as [|a l IH]; simpl; intros w.
  - by intros ->.
  - intros (w1 & w2 & -> & Ha & Hl) Hk. rewrite <- (assoc_L (++)).
    apply matom_complete; auto.
Qed.
End MatcherFacts.

Lemma captured_app w s : captured (w ++ s) s = w.
Proof.
  unfold captured. rewrite length_app.
  replace (length w + length s - length s) with (length w) by lia.
  by rewrite take_app_length.
Qed.

Lemma mtoks_sound ts acc s m :
  mtoks ts acc s = Some m ->
  exists w caps, s = w ++ after m /\ pat_den ts w caps /\ groups m = rev acc ++ caps.
Proof.
  revert acc s. induction ts as [|[a|l] ts IH]; simpl; intros acc s H.
  - simplify_eq. exists [], []. simpl. by rewrite (right_id_L [] (++)).
  - apply matom_sound in H as (w1 & s1 & -> & Ha & H).
    apply IH in H as (w2 & caps & -> & Hd & Hg).
    exists (w1 ++ w2), caps. rewrite (assoc_L (++)). eauto 8.
  - apply matoms_sound in H as (w1 & s1 & -> & Hl & H).
    rewrite captured_app in H.
    apply IH in H as (w2 & caps & -> & Hd & Hg).
    exists (w1 ++ w2), (w1 :: caps). rewrite (assoc_L (++)).
    split; [done|]. split; [eauto 8|].
    rewrite Hg. simpl. by rewrite <- (assoc_L (++)).
Qed.

Lemma mtoks_complete ts acc w caps s' :
  pat_den ts w caps -> is_Some (mtoks ts acc (w ++ s')).
Proof.
  revert acc w caps. induction ts as [|[a|l] ts IH]; simpl; intros acc w caps.
  - intros [-> ->]. eauto.
  - intros (w1 & w2 & -> & Ha & Hd). rewrite <- (assoc_L (++)).
    apply matom_complete; eauto.
  - intros (w1 & w2 & caps' & -> & Hl & Hd & ->). rewrite <- (assoc_L (++)).
    apply matoms_complete; eauto.
Qed.

Lemma pat_den_ngroups ts w caps : pat_den ts w caps -> length caps = ngroups ts.
Proof.
  revert w caps. induction ts as [|[a|l] ts IH]; simpl; intros w caps.
  - by intros [_ ->].
  - intros (w1 & w2 & _ & _ & Hd). by apply IH in Hd.
  - intros (w1 & w2 & caps' & _ & _ & Hd & ->). apply IH in Hd.
    simpl. by f_equal.
Qed.

Lemma match_at_sound ts s m :
  match_at ts s = Some m ->
  exists w, s = w ++ after m /\ pat_den ts w (groups m).
Proof.
  intros (w & caps & Hs & Hd & Hg)%mtoks_sound. simpl in Hg. subst caps. eauto.
Qed.

Lemma match_at_complete ts w caps s' :
  pat_den ts w caps -> is_Some (match_at ts (w ++ s')).
Proof. apply mtoks_complete. Qed.

Lemma match_at_ngroups ts s m : match_at ts s = Some m -> length (groups m) = ngroups ts.
Proof. intros (w & _ & Hd)%match_at_sound. by apply pat_den_ngroups in Hd. Qed.

(** [re.search] finds a match exactly when some position has one, and then
    the leftmost. *)
Lemma search_Some ts s m :
  search ts s = Some m ->
  exists pre rest, s = pre ++ rest /\ match_at ts rest = Some m /\
    forall pre' rest', s = pre' ++ rest' -> length pre' < length pre -> match_at ts rest' = None.
Proof.
  induction s as [|a s IH]; simpl.
  - destruct (match_at ts []) eqn:H0; [|done]. intros ?; simplify_eq.
    exists [], []. split; [done|]. split; [done|]. simpl. intros; lia.
  - destruct (match_at ts (a :: s)) eqn:H0.
    + intros ?; simplify_eq. exists [], (a :: s). split; [done|]. split; [done|].
      simpl. intros; lia.
    + intros (pre & rest & -> & Hm & Hmin)%IH.
      exists (a :: pre), rest. split; [done|]. split; [done|].
      intros [|b pre'] rest' Heq Hlen; simpl in *.
      * by subst.
      * simplify_eq. apply (Hmin pre'); [done|lia].
Qed.

Lemma search_None ts s :
  search ts s = None <-> forall pre rest, s = pre ++ rest -> match_at ts rest = None.
Proof.
  induction s as [|a s IH]; simpl.
  - destruct (match_at ts []) eqn:H0; split; try done.
    + intros H. by rewrite (H [] []) in H0.
    + intros _ pre rest Heq. symmetry in Heq. apply app_eq_nil in Heq as [-> ->]. done.
  - destruct (match_at ts (a :: s)) eqn:H0; split; try done.
    + intros H. by rewrite (H [] (a :: s)) in H0.
    + intros Hs [|b pre] rest Heq; simpl in *; [by subst|].
      simplify_eq. by eapply IH.
    + intros H. apply IH. intros pre rest ->. by apply (H (a :: pre)).
Qed.

(** Every match [re.finditer] yields is a match at some position. *)
Lemma finditer_from_elem ts n s m :
  m ∈ finditer_from ts n s -> exists pre rest, s = pre ++ rest /\ match_at ts rest = Some m.
Proof.
  revert n. induction s as [|a s IH]; intros n; destruct n as [|n]; simpl.
  - destruct (match_at ts []) eqn:H0; [|by intros ?%elem_of_nil].
    intros ->%list_elem_of_singleton. by exists [], [].
  - by intros ?%elem_of_nil.
  - destruct (match_at ts (a :: s)) as [m0|] eqn:H0.
    + intros [->|Hin]%elem_of_cons; [by exists [], (a :: s)|].
      apply IH in Hin as (pre & rest & -> & Hm). by exists (a :: pre), rest.
    + intros (pre & rest & -> & Hm)%IH. by exists (a :: pre), rest.
  - intros (pre & rest & -> & Hm)%IH. by exists (a :: pre), rest.
Qed.

Lemma finditer_elem ts s m :
  m ∈ finditer ts s -> exists pre rest, s = pre ++ rest /\ match_at ts rest = Some m.
Proof. apply finditer_from_elem. Qed.

Lemma finditer_head ts s : head (finditer ts s) = search ts s.
Proof.
  unfold finditer. induction s as [|a s IH]; simpl.
  - by destruct (match_at ts []).
  - by destruct (match_at ts (a :: s)).
Qed.

Lemma finditer_nil ts s : finditer ts s = [] <-> search ts s = None.
Proof.
  rewrite <- finditer_head. by destruct (finditer ts s).
Qed.

Lemma finditer_ngroups ts s m : m ∈ finditer ts s -> length (groups m) = ngroups ts.
Proof. intros (pre & rest & _ & Hm)%finditer_elem. by eapply match_at_ngroups. Qed.

(** ** Classes and literals *)

Lemma word_not_space a : is_word a = true -> is_space a = false.
Proof. destruct a as [[] [] [] [] [] [] [] []]; vm_compute; congruence. Qed.

Lemma space_not_word a : is_space a = true -> is_word a = false.
Proof. destruct a as [[] [] [] [] [] [] [] []]; vm_compute; congruence. Qed.

Lemma in_class_CChar c x : in_class (CChar c) x = true <-> x = c.
Proof. simpl. apply Ascii.eqb_eq. Qed.

Lemma atoms_den_singleton a w : atoms_den [a] w <-> atom_den a w.
Proof.
  simpl. split.
  - intros (w1 & w2 & -> & Ha & ->). by rewrite (right_id_L [] (++)).
  - intros Ha. exists w, []. by rewrite (right_id_L [] (++)).
Qed.

Lemma pat_den_lit s ts w caps :
  pat_den (lit s ++ ts) w caps <-> exists w', w = chars s ++ w' /\ pat_den ts w' caps.
Proof.
  revert w. induction s as [|c s IH]; intros w; simpl.
  - split; [eauto|]. by intros (w' & -> & H).
  - split.
    + intros (w1 & w2 & -> & (x & -> & Hx) & Hd). apply in_class_CChar in Hx as ->.
      apply IH in Hd as (w' & -> & Hd). eauto.
    + intros (w' & -> & Hd). exists [c], (chars s ++ w'). split; [done|].
      split; [exists c; split; [done|by apply in_class_CChar]|].
      apply IH. eauto.
Qed.

(** ** The reading Python reaches first

    A greedy run that takes the whole of a maximal run of its class, the rest
    of the pattern then succeeding, is the first reading tried. *)

Section Deterministic.
Context {R : Type}.
Implicit Types (k : text -> option R) (s w : text).

Lemma greedy_max p k w s' r :
  Forall (fun a => p a = true) w ->
  match s' with [] => True | x :: _ => p x = false end ->
  k s' = Some r ->
  greedy p k (w ++ s') = Some r.
Proof.
  intros Hw Hs Hk. induction Hw as [|a w Ha Hw IH]; simpl.
  - destruct s' as [|x s']; simpl; [done|]. by rewrite Hs.
  - by rewrite Ha, IH.
Qed.

Lemma matom_one c k x s r :
  in_class c x = true -> k s = Some r -> matom (One c) k (x :: s) = Some r.
Proof. simpl. by intros ->. Qed.

Lemma matom_star_max c k w s' r :
  all_in c w -> stops c s' -> k s' = Some r -> matom (Star c) k (w ++ s') = Some r.
Proof. apply greedy_max. Qed.

Lemma matom_plus_max c k w s' r :
  w <> [] -> all_in c w -> stops c s' -> k s' = Some r ->
  matom (Plus c) k (w ++ s') = Some r.
Proof.
  intros Hne Hw Hs Hk. destruct Hw as [|x w Hx Hw]; [done|].
  simpl. rewrite Hx. by apply greedy_max.
Qed.

Lemma matom_opt_take c k x s r :
  in_class c x = true -> k s = Some r -> matom (Opt c) k (x :: s) = Some r.
Proof. simpl. by intros -> ->. Qed.

Lemma matom_opt_skip c k s r :
  stops c s -> k s = Some r -> matom (Opt c) k s = Some r.
Proof. destruct s as [|x s]; simpl; [done|]. by intros ->. Qed.
End Deterministic.

Lemma mtoks_lit s ts caps t r :
  mtoks ts caps t = Some r -> mtoks (lit s ++ ts) caps (chars s ++ t) = Some r.
Proof.
  intros H. induction s as [|c s IH]; simpl; [done|].
  by rewrite Ascii.eqb_refl.
Qed.

Lemma mtoks_group_plus_max c ts caps w s' r :
  w <> [] -> all_in c w -> stops c s' ->
  mtoks ts (w :: caps) s' = Some r ->
  mtoks (Grp [Plus c] :: ts) caps (w ++ s') = Some r.
Proof.
  intros Hne Hw Hs Hk. cbn [mtoks matoms].
  apply (matom_plus_max c _ w s'); try done. by rewrite captured_app.
Qed.

Lemma mtoks_plus_max c ts caps w s' r :
  w <> [] -> all_in c w -> stops c s' ->
  mtoks ts caps s' = Some r ->
  mtoks (T (Plus c) :: ts) caps (w ++ s') = Some r.
Proof. intros. cbn [mtoks]. by apply matom_plus_max. Qed.

Lemma mtoks_star_max c ts caps w s' r :
  all_in c w -> stops c s' ->
  mtoks ts caps s' = Some r ->
  mtoks (T (Star c) :: ts) caps (w ++ s') = Some r.
Proof. intros. cbn [mtoks]. by apply matom_star_max. Qed.

(** A run of a class is determined by the text it starts. *)
Lemma run_unique (p : ascii -> bool) (u v x y : text) :
  Forall (fun a => p a = true) u -> Forall (fun a => p a = true) v ->
  match x with [] => True | a :: _ => p a = false end ->
  match y with [] => True | a :: _ => p a = false end ->
  x <> [] -> y <> [] ->
  u ++ x = v ++ y -> u = v /\ x = y.
Proof.
  intros Hu. revert v. induction Hu as [|a u Ha Hu IH]; intros v Hv Hx Hy Hxn Hyn Heq.
  - destruct Hv as [|b v Hb Hv]; [done|]. simpl in Heq.
    destruct x as [|a x]; [done|]. simplify_eq. congruence.
  - destruct Hv as [|b v Hb Hv]; simpl in Heq.
    + destruct y as [|b y]; [done|]. simplify_eq. congruence.
    + simplify_eq. destruct (IH v) as [-> ->]; auto.
Qed.

(** Where a character occurs once, the text around it is determined. *)
Lemma split_unique (c : ascii) (P R B S : text) :
  c ∉ B -> c ∉ S -> P ++ c :: R = B ++ c :: S -> P = B /\ R = S.
Proof.
  revert B. induction P as [|x P IH]; intros [|b B] HB HS Heq; simpl in *.
  - by simplify_eq.
  - exfalso. apply HB. injection Heq as -> _. by left.
  - exfalso. apply HS. injection Heq as -> <-. apply elem_of_app. right. by left.
  - injection Heq as -> Heq. destruct (IH B) as [-> ->]; auto.
    intros ?. apply HB. by right.
Qed.

(** ** Non-empty matches

    No pattern of the source matches the empty text, so that [finditer] never
    takes its step after an empty match. *)

Lemma source_patterns_mandatory : forallb mandatory source_patterns = true.
Proof. reflexivity. Qed.

Lemma pat_den_mandatory ts w caps : mandatory ts = true -> pat_den ts w caps -> w <> [].
Proof.
  destruct ts as [|[[c|c|c|c|c]|[|[c|c|c|c|c] l]] ts]; try done; simpl; intros _.
  - intros (w1 & w2 & -> & (x & -> & _) & _). done.
  - intros (w1 & w2 & -> & [Hne _] & _). by destruct w1.
  - intros (w1 & w2 & caps' & -> & (u1 & u2 & -> & (x & -> & _) & _) & _). done.
  - intros (w1 & w2 & caps' & -> & (u1 & u2 & -> & [Hne _] & _) & _). by destruct u1.
Qed.

Lemma match_at_consumes ts s m :
  mandatory ts = true -> match_at ts s = Some m -> length (after m) < length s.
Proof.
  intros Hm (w & -> & Hd)%match_at_sound. apply pat_den_mandatory in Hd; [|done].
  rewrite length_app. destruct w; [done|]. simpl. lia.
Qed.

Lemma finditer_from_drop ts n s :
  n <= length s -> finditer_from ts n s = finditer ts (drop n s).
Proof.
  revert n. induction s as [|a s IH]; intros [|n] Hn; simpl in *; try done; try lia.
  apply IH. lia.
Qed.

(** Each search starts where the previous match ended. *)
Lemma finditer_match ts s m :
  match_at ts s = Some m -> length (after m) < length s ->
  finditer ts s = m :: finditer ts (after m).
Proof.
  intros Hm Hlen. pose proof Hm as (w & Hs & _)%match_at_sound.
  unfold finditer at 1. destruct s as [|a s]; simpl in *; [lia|]. rewrite Hm. f_equal.
  rewrite finditer_from_drop by lia. f_equal.
  destruct w as [|b w]; simpl in Hs.
  { rewrite <- Hs in Hlen. simpl in Hlen. lia. }
  injection Hs as -> ->. rewrite length_app.
  replace (S (length w + length (after m)) - length (after m) - 1) with (length w) by lia.
  by rewrite drop_app_length.
Qed.

Lemma finditer_no_match ts a s :
  match_at ts (a :: s) = None -> finditer ts (a :: s) = finditer ts s.
Proof. unfold finditer. simpl. by intros ->. Qed.

Lemma finditer_empty ts : match_at ts [] = None -> finditer ts [] = [].
Proof. unfold finditer. simpl. by intros ->. Qed.

(** The tail [[^{]*] of the signature pattern runs to the end of a block that
    has no opening brace. *)
Lemma greedy_to_end {R} p (f : text -> R) s :
  Forall (fun a => p a = true) s -> greedy p (fun s' => Some (f s')) s = Some (f []).
Proof.
  induction 1 as [|a s Ha Hs IH]; simpl; [done|]. by rewrite Ha, IH.
Qed.

Lemma signature_match_to_end s m :
  "{"%char ∉ s -> match_at signature_re s = Some m -> after m = [].
Proof.
  intros Hs Hm. unfold match_at, signature_re in Hm. cbn [app mtoks] in Hm.
  apply matoms_sound in Hm as (w1 & s1 & -> & _ & Hm).
  change (lit "(" ++ ?x) with (T (One (CChar "(")) :: x) in Hm.
  cbn [mtoks] in Hm.
  apply matom_sound in Hm as (w2 & s2 & -> & _ & Hm).
  apply matom_sound in Hm as (w3 & s3 & -> & _ & Hm).
  change (lit ")" ++ ?x) with (T (One (CChar ")")) :: x) in Hm.
  cbn [mtoks] in Hm.
  apply matom_sound in Hm as (w4 & s4 & -> & _ & Hm).
  cbn [matom] in Hm.
  rewrite (greedy_to_end _ (fun s' => {| groups := _; after := s' |})) in Hm.
  - by injection Hm as <-.
  - apply Forall_forall. intros a Ha. simpl.
    destruct (Ascii.eqb_spec a "{") as [->|]; [|done].
    exfalso. apply Hs. rewrite !elem_of_app. auto.
Qed.

Lemma signature_at_most_one s :
  "{"%char ∉ s -> length (finditer signature_re s) <= 1.
Proof.
  induction s as [|a s IH]; intros Hs.
  - unfold finditer. simpl. destruct (match_at signature_re []); simpl; lia.
  - destruct (match_at signature_re (a :: s)) as [m|] eqn:Hm.
    + rewrite (finditer_match _ _ m Hm).
      * apply signature_match_to_end in Hm as ->; [|done].
        rewrite (finditer_empty signature_re) by done. simpl. lia.
      * by apply (match_at_consumes signature_re).
    + rewrite finditer_no_match by done. apply IH. intros ?. apply Hs. by right.
Qed.

(** * Facts about the analyzer *)

(** ** No statement raises

    Every group read is of a group the pattern has, every dictionary read is
    of a key just tested or inserted: each scanner returns, and what it
    returns is given in closed form. *)

Lemma bind_Ok {A B} (a : A) (f : A -> result B) : (Ok a ≫= f) = f a.
Proof. done. Qed.

Lemma group_Ok m n : 0 < n -> n <= length (groups m) -> group m n = Ok (grp m (pred n)).
Proof.
  intros Hn Hlen. unfold group, grp.
  destruct (lookup_lt_is_Some_2 (groups m) (pred n)) as [g ->]; [lia|done].
Qed.

Lemma for_each_Ok {A S} (f : S -> A -> S) (body : S -> A -> result S) (l : list A) :
  (forall x s, x ∈ l -> body s x = Ok (f s x)) ->
  forall s, for_each l body s = Ok (foldl f s l).
Proof.
  induction l as [|x l IH]; intros Hb s; simpl; [done|].
  rewrite Hb by left. rewrite bind_Ok. apply IH. intros y s' Hy. apply Hb. by right.
Qed.

Lemma search_ngroups ts s m : search ts s = Some m -> length (groups m) = ngroups ts.
Proof. intros (pre & rest & _ & Hm & _)%search_Some. by eapply match_at_ngroups. Qed.

Lemma foldl_union_singleton (l : list string) (X : gset string) :
  foldl (fun acc x => acc ∪ {[x]}) X l = X ∪ list_to_set l.
Proof.
  revert X. induction l as [|x l IH]; intros X; simpl.
  - set_solver.
  - rewrite IH. set_solver.
Qed.

Lemma foldl_append_each {A B} (f : A -> B) (l : list A) (acc : list B) :
  foldl (fun acc x => acc ++ [f x]) acc l = acc ++ (f <$> l).
Proof.
  revert acc. induction l as [|x l IH]; intros acc; simpl.
  - by rewrite (right_id_L [] (++)).
  - rewrite IH. by rewrite <- (assoc_L (++)).
Qed.

Section AnalyzerFacts.
Variable relpath : string -> string -> string.

Lemma scan_package_Ok self p c :
  scan_package relpath self p c =
  Ok (set_packages self
        match declared_package c with
        | Some name => add_file (packages self) name (relpath p (root_dir self))
        | None => packages self
        end).
Proof.
  unfold scan_package, declared_package.
  destruct (search package_re c) as [m|] eqn:Hs; simpl; [|by destruct self].
  apply search_ngroups in Hs. rewrite group_Ok by (rewrite ?Hs; simpl; lia).
  rewrite bind_Ok. simpl. unfold getitem, add_file.
  destruct (decide _) as [Hin|Hin].
  - apply elem_of_dom in Hin as [v Hv]. rewrite Hv. done.
  - apply not_elem_of_dom in Hin. rewrite lookup_insert_eq, Hin. simpl.
    by rewrite insert_insert_eq.
Qed.

Lemma scan_quoted_Ok block (X : gset string) :
  for_each (finditer quoted_re block)
    (fun found imp => p ← group imp 1; Ok (found ∪ {[str p]})) X =
  Ok (X ∪ list_to_set ((fun imp => str (grp imp 0)) <$> finditer quoted_re block)).
Proof.
  rewrite (for_each_Ok (fun found imp => found ∪ {[str (grp imp 0)]})).
  - f_equal. rewrite <- foldl_union_singleton. by rewrite foldl_fmap.
  - intros m X' Hm. apply finditer_ngroups in Hm.
    rewrite group_Ok by (rewrite ?Hm; simpl; lia). done.
Qed.

Lemma scan_blocks_Ok blocks (X : gset string) :
  for_each blocks
    (fun found import_block =>
       for_each (finditer quoted_re import_block)
         (fun found imp => p ← group imp 1; Ok (found ∪ {[str p]})) found) X =
  Ok (X ∪ list_to_set (block ← blocks;
                       (fun imp => str (grp imp 0)) <$> finditer quoted_re block)).
Proof.
  revert X. induction blocks as [|b blocks IH]; intros X; simpl.
  - f_equal. set_solver.
  - rewrite scan_quoted_Ok, bind_Ok, IH. f_equal.
    rewrite list_to_set_app_L. set_solver.
Qed.

Lemma scan_imports_Ok self p c :
  scan_imports self p c =
  Ok (set_imports self
        match findall import_re c with
        | [] => imports self
        | _ :: _ => <[p := list_to_set (import_paths c)]> (imports self)
        end).
Proof.
  unfold scan_imports, import_paths.
  destruct (findall import_re c) as [|b bs] eqn:Hf; [by destruct self|].
  rewrite scan_blocks_Ok, bind_Ok. do 3 f_equal. set_solver.
Qed.

Lemma scan_decl_Ok entry_re m :
  ngroups entry_re = 1 -> length (groups m) = 2 ->
  scan_decl entry_re m = Ok (decl_of entry_re m).
Proof.
  intros He Hm. unfold scan_decl, decl_of.
  rewrite !group_Ok by (rewrite ?Hm; lia). rewrite !bind_Ok. simpl.
  rewrite (for_each_Ok (fun entries e => entries ++ [str (grp e 0)])).
  - rewrite bind_Ok. do 2 f_equal. by rewrite foldl_append_each.
  - intros e acc Hin. apply finditer_ngroups in Hin.
    rewrite group_Ok by (rewrite ?Hin, ?He; lia). done.
Qed.

Lemma scan_interfaces_Ok self c :
  scan_interfaces self c =
  Ok (set_interfaces self (foldl put_decl (interfaces self) (interface_decls c))).
Proof.
  unfold scan_interfaces, interface_decls.
  rewrite (for_each_Ok
    (fun self m => set_interfaces self (put_decl (interfaces self) (decl_of signature_re m)))).
  - f_equal. generalize (finditer interface_re c). intros l. revert self.
    induction l as [|m l IH]; intros self; simpl; [by destruct self|].
    rewrite IH. done.
  - intros m s Hin. apply finditer_ngroups in Hin.
    rewrite scan_decl_Ok by done. rewrite bind_Ok.
    by destruct (decl_of signature_re m).
Qed.

Lemma scan_structs_Ok self c :
  scan_structs self c =
  Ok (set_structs self (foldl put_decl (structs self) (struct_decls c))).
Proof.
  unfold scan_structs, struct_decls.
  rewrite (for_each_Ok
    (fun self m => set_structs self (put_decl (structs self) (decl_of field_re m)))).
  - f_equal. generalize (finditer struct_re c). intros l. revert self.
    induction l as [|m l IH]; intros self; simpl; [by destruct self|].
    rewrite IH. done.
  - intros m s Hin. apply finditer_ngroups in Hin.
    rewrite scan_decl_Ok by done. rewrite bind_Ok.
    by destruct (decl_of field_re m).
Qed.

Lemma scan_methods_Ok self c :
  scan_methods self c =
  Ok (set_methods self (foldl append_method (methods self) (method_sigs c))).
Proof.
  unfold scan_methods, method_sigs.
  rewrite (for_each_Ok
    (fun self m => set_methods self
                     (append_method (methods self) (str (grp m 1), str (grp m 2))))).
  - f_equal. generalize (finditer method_re c). intros l. revert self.
    induction l as [|m l IH]; intros self; simpl; [by destruct self|].
    rewrite IH. done.
  - intros m s Hin. apply finditer_ngroups in Hin.
    rewrite !group_Ok by (rewrite ?Hin; simpl; lia). rewrite !bind_Ok. simpl.
    unfold getitem, append_method. simpl.
    destruct (decide _) as [Hd|Hd].
    + apply elem_of_dom in Hd as [v Hv]. rewrite Hv. done.
    + apply not_elem_of_dom in Hd. rewrite lookup_insert_eq, Hd. simpl.
      by rewrite insert_insert_eq.
Qed.

Lemma analyze_file_Ok self p c :
  analyze_file relpath self p c = Ok (analyze_file_result relpath self p c).
Proof.
  unfold analyze_file.
  rewrite scan_package_Ok, bind_Ok, scan_imports_Ok, bind_Ok.
  rewrite scan_interfaces_Ok, bind_Ok, scan_structs_Ok, bind_Ok, scan_methods_Ok.
  done.
Qed.
End AnalyzerFacts.

(** ** The dictionaries after a file *)

Lemma put_decls_union (d : gmap string (list string)) l :
  foldl put_decl d l = foldl put_decl ∅ l ∪ d.
Proof.
  revert d. induction l as [|[k v] l IH]; intros d; simpl.
  - by rewrite (left_id_L ∅ (∪)).
  - rewrite IH. rewrite (IH (put_decl ∅ (k, v))). unfold put_decl. simpl.
    rewrite <- (assoc_L (∪)). f_equal.
    by rewrite <- insert_union_l, (left_id_L ∅ (∪)).
Qed.

Lemma put_decls_lookup (d : gmap string (list string)) l k :
  foldl put_decl d l !! k =
  match foldl put_decl ∅ l !! k with
  | Some v => Some v
  | None => d !! k
  end.
Proof.
  rewrite put_decls_union, lookup_union.
  destruct (foldl put_decl ∅ l !! k), (d !! k); done.
Qed.

Lemma put_decls_dom (d : gmap string (list string)) l :
  dom (foldl put_decl d l) = dom d ∪ list_to_set l.*1.
Proof.
  revert d. induction l as [|[k v] l IH]; intros d; simpl.
  - set_solver.
  - rewrite IH. unfold put_decl. rewrite dom_insert_L. set_solver.
Qed.

Lemma append_methods_lookup (d : gmap string (list string)) sigs ty :
  foldl append_method d sigs !! ty =
  match methods_for ty sigs with
  | [] => d !! ty
  | ms => Some (default [] (d !! ty) ++ ms)
  end.
Proof.
  revert d. induction sigs as [|[t m] sigs IH]; intros d; [done|].
  simpl. rewrite IH. unfold methods_for, append_method. simpl.
  destruct (decide (t = ty)) as [->|Hne].
  - rewrite filter_cons_True by done. rewrite fmap_cons. cbn [snd].
    generalize ((filter (fun e => e.1 = ty) sigs).*2). intros ms.
    rewrite lookup_insert_eq. simpl.
    destruct ms as [|m' ms]; [done|]. by rewrite <- (assoc_L (++)).
  - rewrite filter_cons_False by done. by rewrite lookup_insert_ne.
Qed.

Lemma add_file_lookup (d : gmap string (gset string)) n rel k :
  add_file d n rel !! k =
  if decide (n = k) then Some (default ∅ (d !! n) ∪ {[rel]}) else d !! k.
Proof. unfold add_file. by rewrite lookup_insert. Qed.


(** ** What the package and import patterns match *)

Lemma package_re_den w caps :
  pat_den package_re w caps <->
  exists ws id, w = chars "package" ++ ws ++ id /\
    ws <> [] /\ all_in CSpace ws /\ id <> [] /\ all_in CWord id /\ caps = [id].
Proof.
  unfold package_re. rewrite pat_den_lit. cbn [pat_den]. split.
  - intros (w' & -> & ws & w2 & -> & [Hne Hws] & id & w3 & caps' & -> & Hid & [-> ->] & ->).
    apply atoms_den_singleton in Hid as [Hidne Hid].
    exists ws, id. by rewrite (right_id_L [] (++)).
  - intros (ws & id & -> & Hne & Hws & Hidne & Hid & ->).
    exists (ws ++ id). split; [done|]. exists ws, id. split; [done|]. split; [done|].
    exists id, [], []. rewrite (right_id_L [] (++)). split; [done|].
    split; [by apply atoms_den_singleton|]. done.
Qed.

Lemma package_decl_match rest : package_decl rest <-> is_Some (match_at package_re rest).
Proof.
  split.
  - intros (ws & id & post & -> & Hne & Hws & Hidne & Hid).
    rewrite !(assoc_L (++) _ _ post).
    apply (match_at_complete _ _ [id]). apply package_re_den.
    by exists ws, id.
  - intros [m Hm]. apply match_at_sound in Hm as (w & -> & Hd).
    apply package_re_den in Hd as (ws & id & -> & Hne & Hws & Hidne & Hid & _).
    exists ws, id, (after m). by rewrite <- !(assoc_L (++)).
Qed.

Lemma all_in_CAny w : all_in CAny w.
Proof. unfold all_in. by apply Forall_forall. Qed.

Lemma import_re_den w caps :
  pat_den import_re w caps <->
  exists ws ws1 body ws2,
    w = chars "import" ++ ws ++ chars "(" ++ ws1 ++ body ++ ws2 ++ chars ")" /\
    all_in CSpace ws /\ all_in CSpace ws1 /\ all_in CSpace ws2 /\ caps = [body].
Proof.
  unfold import_re. split.
  - intros H. apply pat_den_lit in H as (w' & -> & H).
    cbn [app pat_den atom_den] in H. destruct H as (ws & w2 & -> & Hws & H).
    apply pat_den_lit in H as (w3 & -> & H).
    cbn [app pat_den atom_den] in H.
    destruct H as (ws1 & w4 & -> & Hws1 & body & w5 & caps' & -> & Hb & H & ->).
    destruct H as (ws2 & w6 & -> & Hws2 & H).
    apply (pat_den_lit ")" []) in H as (w7 & -> & [-> ->]).
    by exists ws, ws1, body, ws2.
  - intros (ws & ws1 & body & ws2 & -> & Hws & Hws1 & Hws2 & ->).
    apply pat_den_lit. eexists. split; [done|].
    cbn [app pat_den atom_den]. exists ws. eexists. split; [done|]. split; [done|].
    apply pat_den_lit. eexists. split; [done|].
    cbn [app pat_den atom_den]. exists ws1. eexists. split; [done|]. split; [done|].
    exists body. eexists. eexists. split; [done|].
    split; [apply atoms_den_singleton, all_in_CAny|]. split; [|done].
    exists ws2. eexists. split; [done|]. split; [done|].
    apply (pat_den_lit ")" []). by exists [].
Qed.

Lemma import_block_match rest : import_block rest <-> is_Some (match_at import_re rest).
Proof.
  split.
  - intros (ws & mid & post & -> & Hws).
    replace (chars "import" ++ ws ++ chars "(" ++ mid ++ chars ")" ++ post)
      with ((chars "import" ++ ws ++ chars "(" ++ [] ++ mid ++ [] ++ chars ")") ++ post)
      by (by rewrite <- !(assoc_L (++))).
    apply (match_at_complete _ _ [mid]). apply import_re_den.
    exists ws, [], mid, []. repeat split; try done; apply Forall_nil_2.
  - intros [m Hm]. apply match_at_sound in Hm as (w & -> & Hd).
    apply import_re_den in Hd as (ws & ws1 & body & ws2 & -> & Hws & _).
    exists ws, (ws1 ++ body ++ ws2), (after m). by rewrite <- !(assoc_L (++)).
Qed.

Lemma stops_word_run c c' (w s : text) :
  (forall a, in_class c' a = true -> in_class c a = false) ->
  w <> [] -> all_in c' w -> stops c (w ++ s).
Proof.
  intros Hd Hne Hw. destruct Hw as [|a w Ha Hw]; [done|]. simpl. by apply Hd.
Qed.

Lemma package_match_at ws id post :
  ws <> [] -> all_in CSpace ws -> id <> [] -> all_in CWord id -> stops CWord post ->
  match_at package_re (chars "package" ++ ws ++ id ++ post) =
  Some {| groups := [id]; after := post |}.
Proof.
  intros Hne Hws Hidne Hid Hpost. unfold match_at, package_re.
  apply mtoks_lit. apply mtoks_plus_max; try done.
  { eapply stops_word_run; [|done..]. apply word_not_space. }
  by apply mtoks_group_plus_max.
Qed.

Lemma search_is_Some ts pre rest :
  is_Some (match_at ts rest) -> is_Some (search ts (pre ++ rest)).
Proof.
  intros Hm. destruct (search ts (pre ++ rest)) eqn:Hs; [eauto|].
  rewrite search_None in Hs. rewrite (Hs pre rest) in Hm by done. by destruct Hm.
Qed.

Lemma search_first ts pre rest m :
  match_at ts rest = Some m ->
  (forall pre' rest', pre ++ rest = pre' ++ rest' -> length pre' < length pre ->
     match_at ts rest' = None) ->
  search ts (pre ++ rest) = Some m.
Proof.
  intros Hm Hmin.
  destruct (search_is_Some ts pre rest) as [m' Hs]; [eauto|].
  rewrite Hs. apply search_Some in Hs as (pre0 & rest0 & Heq & Hm0 & Hmin0).
  destruct (decide (length pre0 < length pre)) as [Hlt|Hge].
  { rewrite (Hmin pre0 rest0) in Hm0; done. }
  destruct (decide (length pre < length pre0)) as [Hlt|Hge'].
  { rewrite (Hmin0 pre rest) in Hm; done. }
  apply app_inj_1 in Heq as [-> ->]; [|lia]. congruence.
Qed.


(** ** What the declaration patterns match *)

Lemma interface_re_decl : interface_re = decl_re "interface".
Proof. reflexivity. Qed.

Lemma struct_re_decl : struct_re = decl_re "struct".
Proof. reflexivity. Qed.

Lemma decl_re_den kw w caps :
  pat_den (decl_re kw) w caps ->
  exists u1 g u2 u3 body,
    w = chars "type" ++ u1 ++ g ++ u2 ++ chars kw ++ u3 ++ chars "{" ++ body ++ chars "}" /\
    u1 <> [] /\ all_in CSpace u1 /\ g <> [] /\ all_in CWord g /\
    u2 <> [] /\ all_in CSpace u2 /\ all_in CSpace u3 /\
    body <> [] /\ all_in (CNot ["}"%char]) body /\ caps = [g; body].
Proof.
  unfold decl_re. intros H. apply pat_den_lit in H as (w' & -> & H).
  cbn [app pat_den atom_den] in H.
  destruct H as (u1 & w2 & -> & [Hu1n Hu1] & g & w3 & caps1 & -> & Hg & H & ->).
  apply atoms_den_singleton in Hg as [Hgn Hg].
  destruct H as (u2 & w4 & -> & [Hu2n Hu2] & H).
  apply pat_den_lit in H as (w5 & -> & H). cbn [app pat_den atom_den] in H.
  destruct H as (u3 & w6 & -> & Hu3 & H).
  apply pat_den_lit in H as (w7 & -> & H). cbn [app pat_den atom_den] in H.
  destruct H as (body & w8 & caps2 & -> & Hb & H & ->).
  apply atoms_den_singleton in Hb as [Hbn Hb].
  apply (pat_den_lit "}" []) in H as (w9 & -> & [-> ->]).
  exists u1, g, u2, u3, body. done.
Qed.

Lemma not_in_run c (x : ascii) w : in_class c x = false -> all_in c w -> x ∉ w.
Proof.
  intros Hx Hw Hin. unfold all_in in Hw. rewrite Forall_forall in Hw.
  apply Hw in Hin. congruence.
Qed.

(** In a text whose only opening brace is directly followed by the closing
    one, no position has a declaration match. *)
Lemma no_decl_match_without_body kw (B post pre rest : text) :
  "{"%char ∉ B -> "{"%char ∉ post ->
  B ++ chars "{}" ++ post = pre ++ rest -> match_at (decl_re kw) rest = None.
Proof.
  intros HB Hpost Heq. destruct (match_at (decl_re kw) rest) as [m|] eqn:Hm; [|done].
  exfalso. apply match_at_sound in Hm as (w & -> & Hd).
  apply decl_re_den in Hd
    as (u1 & g & u2 & u3 & body & -> & _ & _ & _ & _ & _ & _ & _ & Hbn & Hb & _).
  rewrite <- !(assoc_L (++)) in Heq.
  rewrite !(assoc_L (++) _ _ (chars "{" ++ _)) in Heq.
  symmetry in Heq.
  apply (split_unique "{"%char _ (body ++ chars "}" ++ after m) B (chars "}" ++ post))
    in Heq as [_ Heq]; [|done|].
  - destruct Hb as [|b body Hb _]; [done|].
    simpl in Heq. injection Heq as -> _. done.
  - apply not_elem_of_cons. done.
Qed.

Lemma empty_decl_not_matched_at ws1 name ws2 kw ws3 post :
  all_in CSpace ws1 -> name <> [] -> all_in CWord name ->
  ws2 <> [] -> all_in CSpace ws2 -> all_in CSpace ws3 ->
  stops CSpace (chars kw) -> kw <> "" ->
  match_at (decl_re kw) (empty_decl ws1 name ws2 kw ws3 ++ post) = None.
Proof.
  intros Hws1 Hnn Hname Hws2n Hws2 Hws3 Hkw Hkwn.
  destruct (match_at _ _) as [m|] eqn:Hm; [|done].
  exfalso. apply match_at_sound in Hm as (w & Heq & Hd).
  apply decl_re_den in Hd
    as (u1 & g & u2 & u3 & body & -> & Hu1n & Hu1 & Hgn & Hg & Hu2n & Hu2 & Hu3 & Hbn & Hb & _).
  unfold empty_decl in Heq. rewrite <- !(assoc_L (++)) in Heq.
  apply app_inv_head in Heq.
  assert (forall (w s : text), w <> [] -> all_in CWord w ->
            match w ++ s with [] => True | a :: _ => is_space a = false end) as Hword.
  { intros w s Hn Hw. destruct Hw as [|a w Ha _]; [done|]. by apply word_not_space. }
  assert (forall (w s : text), w <> [] -> all_in CSpace w ->
            match w ++ s with [] => True | a :: _ => is_word a = false end) as Hspace.
  { intros w s Hn Hw. destruct Hw as [|a w Ha _]; [done|]. by apply space_not_word. }
  assert (forall (s : text), chars kw ++ s <> []) as Hkw_ne.
  { intros s. destruct kw; [done|]. done. }
  assert (forall (s : text),
            match chars kw ++ s with [] => True | a :: _ => is_space a = false end) as Hkws.
  { intros s. destruct kw; [done|]. exact Hkw. }
  assert (forall (w s : text), w <> [] -> w ++ s <> []) as Hne.
  { intros w s Hn E. by apply app_eq_nil in E as [? _]. }
  apply (run_unique is_space) in Heq as [<- Heq];
    [|exact Hws1|exact Hu1|by apply Hword|by apply Hword|by apply Hne|by apply Hne].
  apply (run_unique is_word) in Heq as [<- Heq];
    [|exact Hname|exact Hg|by apply Hspace|by apply Hspace|by apply Hne|by apply Hne].
  apply (run_unique is_space) in Heq as [<- Heq];
    [|exact Hws2|exact Hu2|by apply Hkws|by apply Hkws|by apply Hkw_ne|by apply Hkw_ne].
  apply app_inv_head in Heq.
  apply (run_unique is_space) in Heq as [<- Heq];
    [|exact Hws3|exact Hu3|done..].
  destruct Hb as [|b body Hb _]; [done|].
  simpl in Heq. injection Heq as <- _. done.
Qed.


(** ** What the method pattern matches *)

Lemma finditer_skip_prefix ts pre s :
  (forall a b, pre = a ++ b -> b <> [] -> match_at ts (b ++ s) = None) ->
  finditer ts (pre ++ s) = finditer ts s.
Proof.
  unfold finditer. induction pre as [|x pre IH]; intros Hno; [done|].
  assert (match_at ts (x :: pre ++ s) = None) as H0 by by apply (Hno [] (x :: pre)).
  simpl. rewrite H0.
  apply IH. intros a b -> Hb. by apply (Hno (x :: a)).
Qed.

Lemma finditer_first ts s m :
  match_at ts s = Some m -> exists l, finditer ts s = m :: l.
Proof.
  intros Hm. unfold finditer. destruct s; simpl; rewrite Hm; eauto.
Qed.

Lemma all_in_stops_word_space w s : w <> [] -> all_in CWord w -> stops CSpace (w ++ s).
Proof. apply stops_word_run, word_not_space. Qed.

Lemma signature_match_at v star ty mn post :
  v <> [] -> all_in CWord v -> star = [] \/ star = chars "*" ->
  ty <> [] -> all_in CWord ty -> mn <> [] -> all_in CWord mn -> stops CWord post ->
  match_at method_re (signature v star ty mn ++ post) =
  Some {| groups := [v; ty; mn]; after := post |}.
Proof.
  intros Hvn Hv Hstar Htyn Hty Hmnn Hmn Hpost. unfold match_at, method_re, signature.
  change (chars "func (") with (chars "func" ++ chars " " ++ chars "(").
  change (chars ") ") with (chars ")" ++ chars " ").
  rewrite <- !(assoc_L (++)).
  apply mtoks_lit. cbn [app].
  apply (mtoks_star_max _ _ _ (chars " ")); [class_run|done|].
  apply mtoks_lit.
  apply mtoks_group_plus_max; [done..|].
  apply (mtoks_plus_max _ _ _ (chars " ")); [done|class_run| |].
  { destruct Hstar as [-> | ->]; [by apply (all_in_stops_word_space ty)|reflexivity]. }
  assert (mtoks (Grp [Plus CWord] :: lit ")" ++ [T (Plus CSpace); Grp [Plus CWord]]) [v]
            (ty ++ chars ")" ++ chars " " ++ mn ++ post) =
          Some {| groups := [v; ty; mn]; after := post |}) as Hrest.
  { apply mtoks_group_plus_max; [done..|].
    apply mtoks_lit.
    apply (mtoks_plus_max _ _ _ (chars " ")); [done|class_run| |].
    { by apply all_in_stops_word_space. }
    by apply mtoks_group_plus_max. }
  cbn [mtoks]. destruct Hstar as [-> | ->].
  - apply matom_opt_skip; [|done].
    destruct Hty as [|a ty Ha _]; [done|]. simpl.
    destruct (Ascii.eqb_spec a "*"); [subst; done|done].
  - by apply matom_opt_take.
Qed.

Lemma no_func_no_match pre s :
  (forall a b, pre <> a ++ chars "func" ++ b) ->
  (exists s', s = chars "func" ++ s') ->
  forall a b, pre = a ++ b -> b <> [] -> match_at method_re (b ++ s) = None.
Proof.
  intros Hno [s' ->] a b -> Hb.
  destruct (match_at method_re _) as [m|] eqn:Hm; [|done]. exfalso.
  apply match_at_sound in Hm as (w & Heq & Hd).
  unfold method_re in Hd. apply pat_den_lit in Hd as (w' & -> & _).
  destruct b as [|b1 [|b2 [|b3 [|b4 b]]]]; simplify_eq/=.
  by apply (Hno a b).
Qed.


(** ** Visiting files in another order *)

Lemma append_methods_default (d : gmap string (list string)) sigs ty :
  default [] (foldl append_method d sigs !! ty) =
  default [] (d !! ty) ++ methods_for ty sigs.
Proof.
  rewrite append_methods_lookup.
  destruct (methods_for ty sigs); [|done]. by rewrite (right_id_L [] (++)).
Qed.

Lemma append_methods_dom (d : gmap string (list string)) sigs :
  dom (foldl append_method d sigs) = dom d ∪ list_to_set sigs.*1.
Proof.
  revert d. induction sigs as [|[t m] sigs IH]; intros d; simpl.
  - set_solver.
  - rewrite IH. unfold append_method. rewrite dom_insert_L. set_solver.
Qed.

Lemma add_file_comm (d : gmap string (gset string)) n1 r1 n2 r2 :
  add_file (add_file d n1 r1) n2 r2 = add_file (add_file d n2 r2) n1 r1.
Proof.
  apply map_eq. intros k. rewrite !add_file_lookup.
  destruct (decide (n1 = n2)) as [->|Hne].
  - destruct (decide (n2 = k)) as [->|]; [|done].
    rewrite !decide_True by done. simpl. f_equal. set_solver.
  - destruct (decide (n2 = k)) as [->|], (decide (n1 = k)) as [->|]; try done.
    by rewrite !decide_False by done.
Qed.

(** The directory walk is a fold of [visit] over the Go files. *)
Section Directory.
Variable relpath : string -> string -> string.
Variable path_join : string -> string -> string.

Lemma analyze_directory_Ok self walk :
  analyze_directory relpath path_join self walk =
  Ok (foldl (visit relpath) self (go_files path_join walk)).
Proof.
  unfold analyze_directory, go_files.
  revert self. induction walk as [|[root files] walk IH]; intros self; [done|].
  cbn [for_each mbind list_bind]. rewrite foldl_app.
  assert (forall self,
    for_each files
      (fun self '(file, content) =>
         if endswith file ".go"
         then analyze_file relpath self (path_join root file) content
         else Ok self) self =
    Ok (foldl (visit relpath) self
          ('(file, content) ← files;
           if endswith file ".go" then [(path_join root file, content)] else []))) as ->.
  { clear. induction files as [|[file content] files IH]; intros self; [done|].
    cbn [for_each mbind list_bind]. rewrite foldl_app.
    destruct (endswith file ".go").
    - rewrite analyze_file_Ok, bind_Ok. apply IH.
    - rewrite bind_Ok. apply IH. }
  rewrite bind_Ok. apply IH.
Qed.

Global Instance agree_refl : Reflexive agree.
Proof. by intros s. Qed.

Global Instance agree_trans : Transitive agree.
Proof.
  intros s1 s2 s3 (?&?&?&?&Hm&?&?) (?&?&?&?&Hm'&?&?).
  repeat split; try congruence. intros ty. by rewrite Hm.
Qed.

Lemma visit_agree s1 s2 f : agree s1 s2 -> agree (visit relpath s1 f) (visit relpath s2 f).
Proof.
  intros (Hr & Hp & Hi & Hmd & Hm & Hid & Hsd). unfold agree, visit.
  cbn [analyze_file_result root_dir packages imports methods interfaces structs].
  rewrite Hr, Hp, Hi. repeat split.
  - rewrite !append_methods_dom. by rewrite Hmd.
  - intros ty. rewrite !append_methods_default. by rewrite Hm.
  - rewrite !put_decls_dom. by rewrite Hid.
  - rewrite !put_decls_dom. by rewrite Hsd.
Qed.

Lemma visit_comm s f g :
  f.1 <> g.1 ->
  agree (visit relpath (visit relpath s f) g) (visit relpath (visit relpath s g) f).
Proof.
  intros Hne. unfold agree, visit.
  cbn [analyze_file_result root_dir packages imports methods interfaces structs].
  repeat split.
  - destruct (declared_package f.2), (declared_package g.2); try done.
    apply add_file_comm.
  - destruct (findall import_re f.2), (findall import_re g.2); try done.
    by apply insert_insert_ne.
  - rewrite !append_methods_dom.
    rewrite <- !(assoc_L (∪)). f_equal. apply (comm_L (∪)).
  - intros ty. rewrite !append_methods_default.
    rewrite <- !(assoc_L (++)). f_equiv. apply (comm (++)).
  - rewrite !put_decls_dom.
    rewrite <- !(assoc_L (∪)). f_equal. apply (comm_L (∪)).
  - rewrite !put_decls_dom.
    rewrite <- !(assoc_L (∪)). f_equal. apply (comm_L (∪)).
Qed.

Lemma foldl_visit_agree l s1 s2 :
  agree s1 s2 -> agree (foldl (visit relpath) s1 l) (foldl (visit relpath) s2 l).
Proof.
  revert s1 s2. induction l as [|f l IH]; intros s1 s2 H; [done|].
  simpl. by apply IH, visit_agree.
Qed.

Lemma foldl_visit_permutation l1 l2 s1 s2 :
  l1 ≡ₚ l2 -> NoDup l1.*1 -> agree s1 s2 ->
  agree (foldl (visit relpath) s1 l1) (foldl (visit relpath) s2 l2).
Proof.
  intros Hperm. revert s1 s2.
  induction Hperm as [|f l1 l2 Hp IH|f g l|l1 l2 l3 Hp1 IH1 Hp2 IH2];
    intros s1 s2 Hnd Hs.
  - done.
  - simpl. rewrite fmap_cons in Hnd. apply NoDup_cons in Hnd as [_ Hnd].
    by apply IH, visit_agree.
  - simpl. rewrite !fmap_cons in Hnd.
    apply NoDup_cons in Hnd as [Hin Hnd].
    apply foldl_visit_agree. etrans; [apply visit_comm|].
    + intros Heq. apply Hin. rewrite Heq. left.
    + by do 2 apply visit_agree.
  - etrans; [by apply IH1|]. apply IH2; [|done]. by rewrite <- Hp1.
Qed.

End Directory.

(** ** A file, analyzed *)

Lemma square_go_analysis :
  exists self,
    analyze_file example_relpath (init "/src") "/src/shapes/square.go" square_go = Ok self /\
    packages self = {[ "shapes" := {[ "shapes/square.go" ]} ]} /\
    imports self = {[ "/src/shapes/square.go" := {[ "fmt"; "os" ]} ]} /\
    interfaces self = ∅ /\
    structs self = {[ "Square" := ["Side"; "Name"] ]} /\
    methods self = {[ "Square" := ["Area"; "Perimeter"] ]}.
Proof.
  eexists. split; [apply analyze_file_Ok|]. repeat split; by vm_compute.
Qed.

(** ** The properties of [analyze_file] and [analyze_directory] *)

Section Claims.
Variable relpath : string -> string -> string.

(** C1.  The text [type Shape interface { Area() float64; Perimeter() float64 }]
    leaves [Interfaces["Shape"]] equal to [["Area"]], not to
    [["Area"; "Perimeter"]]: the tail [[^{]*] of the signature pattern runs over
    the rest of the block, so that for every interface match whose body has no
    opening brace at most one method name is extracted. *)
Theorem shape_interface_records_only_Area self file_path :
  (exists self',
     analyze_file relpath self file_path shape_go = Ok self' /\
     interfaces self' !! "Shape" = Some ["Area"]) /\
  (forall content m,
     m ∈ finditer interface_re content ->
     "{"%char ∉ grp m 1 ->
     length (decl_of signature_re m).2 <= 1).
Proof.
  split.
  - eexists. split; [apply analyze_file_Ok|].
    unfold analyze_file_result. cbn [interfaces].
    replace (interface_decls shape_go) with [("Shape", ["Area"])] by (by vm_compute).
    simpl. unfold put_decl. simpl. by rewrite lookup_insert_eq.
  - intros content m _ Hb. unfold decl_of. cbn [snd]. rewrite length_fmap.
    by apply signature_at_most_one.
Qed.

(** C6.  Two files whose package (the first match of the package pattern) is
    the same name: in either order the Packages entry of that name is the same
    set, and it holds the relative paths of both files. *)
Theorem same_package_collects_both_files self path1 content1 path2 content2 name :
  declared_package content1 = Some name ->
  declared_package content2 = Some name ->
  exists self1 self12 self2 self21 files,
    analyze_file relpath self path1 content1 = Ok self1 /\
    analyze_file relpath self1 path2 content2 = Ok self12 /\
    analyze_file relpath self path2 content2 = Ok self2 /\
    analyze_file relpath self2 path1 content1 = Ok self21 /\
    packages self12 !! name = Some files /\
    packages self21 !! name = Some files /\
    relpath path1 (root_dir self) ∈ files /\
    relpath path2 (root_dir self) ∈ files.
Proof.
  intros H1 H2. do 4 eexists. exists
    (default ∅ (packages self !! name) ∪ {[relpath path1 (root_dir self)]} ∪
     {[relpath path2 (root_dir self)]}).
  split; [apply analyze_file_Ok|]. split; [apply analyze_file_Ok|].
  split; [apply analyze_file_Ok|]. split; [apply analyze_file_Ok|].
  cbn [analyze_file_result packages root_dir]. rewrite H1, H2.
  rewrite !add_file_lookup. rewrite !decide_True by done. simpl.
  split; [done|]. split; [f_equal; set_solver|]. set_solver.
Qed.

(** C7.  On ASCII text: when the keyword [package] followed by whitespace and
    an identifier occurs nowhere in the text, Packages is left as it was; when it occurs,
    the leftmost occurrence decides: the file's relative path is added under
    the identifier found there, and no other entry changes. *)
Theorem package_from_first_declaration self file_path content :
  ascii_text content ->
  exists self', analyze_file relpath self file_path content = Ok self' /\
    ((forall pre rest, content = pre ++ rest -> ~ package_decl rest) ->
     packages self' = packages self) /\
    (forall pre ws id post,
       content = pre ++ chars "package" ++ ws ++ id ++ post ->
       ws <> [] -> all_in CSpace ws -> id <> [] -> all_in CWord id -> stops CWord post ->
       (forall pre' rest', content = pre' ++ rest' -> length pre' < length pre ->
          ~ package_decl rest') ->
       packages self' =
       <[str id := default ∅ (packages self !! str id) ∪
                   {[relpath file_path (root_dir self)]}]> (packages self)).
Proof.
  intros _. eexists. split; [apply analyze_file_Ok|].
  cbn [analyze_file_result packages]. unfold declared_package. split.
  - intros Hno. destruct (search package_re content) as [m|] eqn:Hs; [|done].
    apply search_Some in Hs as (pre & rest & -> & Hm & _).
    destruct (Hno pre rest); [done|]. apply package_decl_match. eauto.
  - intros pre ws id post -> Hne Hws Hidne Hid Hpost Hmin.
    rewrite (search_first _ _ _ {| groups := [id]; after := post |}).
    + done.
    + by apply package_match_at.
    + intros pre' rest' Heq Hlt.
      destruct (match_at package_re rest') eqn:Hm; [|done].
      destruct (Hmin pre' rest'); [done..|]. apply package_decl_match. eauto.
Qed.

(** C8.  On every text [analyze_file] returns an analyzer and raises nothing;
    when no scanner finds a match the analyzer is returned unchanged. *)
Theorem analyze_file_never_raises self file_path content :
  exists self', analyze_file relpath self file_path content = Ok self' /\
    (search package_re content = None ->
     findall import_re content = [] ->
     finditer interface_re content = [] ->
     finditer struct_re content = [] ->
     finditer method_re content = [] ->
     self' = self).
Proof.
  eexists. split; [apply analyze_file_Ok|].
  intros Hp Hi Hf Hs Hm. unfold analyze_file_result, declared_package,
    interface_decls, struct_decls, method_sigs.
  rewrite Hp, Hi, Hf, Hs, Hm. simpl. by destruct self.
Qed.

(** C9.  [analyze_file] only populates: every Packages set keeps its paths,
    every Methods list is extended at its end, Imports changes at most at the
    path of the processed file, and no key leaves Imports, Interfaces or
    Structs. *)
Theorem analyze_file_monotone self file_path content :
  exists self', analyze_file relpath self file_path content = Ok self' /\
    (forall k files, packages self !! k = Some files ->
       exists files', packages self' !! k = Some files' /\ files ⊆ files') /\
    (forall k l, methods self !! k = Some l ->
       exists l', methods self' !! k = Some (l ++ l')) /\
    (forall k, k <> file_path -> imports self' !! k = imports self !! k) /\
    dom (imports self) ⊆ dom (imports self') /\
    dom (interfaces self) ⊆ dom (interfaces self') /\
    dom (structs self) ⊆ dom (structs self').
Proof.
  eexists. split; [apply analyze_file_Ok|].
  cbn [analyze_file_result packages methods imports interfaces structs].
  repeat split.
  - intros k files Hk. destruct (declared_package content) as [n|]; [|eauto].
    rewrite add_file_lookup. destruct (decide (n = k)) as [->|]; [|eauto].
    rewrite Hk. simpl. eexists. split; [done|]. set_solver.
  - intros k l Hk. rewrite append_methods_lookup, Hk. simpl.
    destruct (methods_for k _) as [|m ms]; [|eauto].
    exists []. by rewrite (right_id_L [] (++)).
  - intros k Hk. destruct (findall import_re content); [done|].
    by rewrite lookup_insert_ne.
  - destruct (findall import_re content); [done|]. rewrite dom_insert_L. set_solver.
  - rewrite put_decls_dom. set_solver.
  - rewrite put_decls_dom. set_solver.
Qed.

(** C10.  An empty-bodied declaration [type <name> interface {}] or
    [type <name> struct {}] is matched by neither declaration pattern where it
    starts, whatever follows it; a file that contains it, and no other opening
    brace, leaves Interfaces and Structs as they were; and every match of
    either pattern has a body of at least one character. *)
Theorem empty_body_not_recorded self file_path ws1 name ws2 ws3 :
  all_in CSpace ws1 -> name <> [] -> all_in CWord name ->
  ws2 <> [] -> all_in CSpace ws2 -> all_in CSpace ws3 ->
  (forall post,
     match_at interface_re (empty_decl ws1 name ws2 "interface" ws3 ++ post) = None) /\
  (forall post,
     match_at struct_re (empty_decl ws1 name ws2 "struct" ws3 ++ post) = None) /\
  (forall kw pre post, kw = "interface" \/ kw = "struct" ->
     "{"%char ∉ pre -> "{"%char ∉ post ->
     exists self',
       analyze_file relpath self file_path
         (pre ++ empty_decl ws1 name ws2 kw ws3 ++ post) = Ok self' /\
       interfaces self' = interfaces self /\ structs self' = structs self) /\
  (forall content m,
     m ∈ finditer interface_re content \/ m ∈ finditer struct_re content ->
     grp m 1 <> []).
Proof.
  intros Hws1 Hnn Hname Hws2n Hws2 Hws3. split; [|split; [|split]].
  - intros post. rewrite interface_re_decl. by apply empty_decl_not_matched_at.
  - intros post. rewrite struct_re_decl. by apply empty_decl_not_matched_at.
  - intros kw pre post Hkw Hpre Hpost. eexists. split; [apply analyze_file_Ok|].
    cbn [analyze_file_result interfaces structs].
    unfold interface_decls, struct_decls.
    assert (forall kw',
              finditer (decl_re kw') (pre ++ empty_decl ws1 name ws2 kw ws3 ++ post) = [])
      as Hnone.
    { intros kw'. apply finditer_nil, search_None. intros pre' rest Heq.
      eapply (no_decl_match_without_body kw'
                (pre ++ chars "type" ++ ws1 ++ name ++ ws2 ++ chars kw ++ ws3) post).
      - rewrite !not_elem_of_app. repeat split.
        + done.
        + compute_done.
        + by apply (not_in_run CSpace).
        + by apply (not_in_run CWord).
        + by apply (not_in_run CSpace).
        + destruct Hkw as [-> | ->]; compute_done.
        + by apply (not_in_run CSpace).
      - done.
      - rewrite <- Heq. unfold empty_decl. by rewrite <- !(assoc_L (++)). }
    rewrite interface_re_decl, struct_re_decl, !Hnone. done.
  - intros content m Hin.
    assert (exists kw rest, match_at (decl_re kw) rest = Some m) as (kw & rest & Hm).
    { destruct Hin as [Hin|Hin]; apply finditer_elem in Hin as (pre & rest & _ & Hm);
        eauto. }
    apply match_at_sound in Hm as (w & _ & Hd).
    apply decl_re_den in Hd
      as (u1 & g & u2 & u3 & body & _ & _ & _ & _ & _ & _ & _ & _ & Hbn & _ & Hcaps).
    unfold grp. rewrite Hcaps. done.
Qed.

End Claims.

(** ** The properties at concrete inputs *)

(** C3, as stated, fails: in [import ( )] the block pattern matches and holds
    no quoted string, yet the file's path gets an entry, the empty set. *)
Lemma empty_import_block_creates_entry :
  import_paths empty_import_go = [] /\
  exists self',
    analyze_file example_relpath (init "/src") "/src/a.go" empty_import_go = Ok self' /\
    imports self' !! "/src/a.go" = Some ∅ /\
    imports self' !! "/src/a.go" <> None.
Proof.
  split; [reflexivity|]. eexists. split; [apply analyze_file_Ok|].
  assert (imports (analyze_file_result example_relpath (init "/src") "/src/a.go"
                     empty_import_go) !! "/src/a.go" = Some ∅) as H
    by (by vm_compute).
  by rewrite H.
Qed.

(** C5, as stated, fails: the signature [func (s *Square) Area] occurs in the
    text, but its keyword was consumed as the method name of the match before
    it, and nothing is recorded under [Square]. *)
Lemma shadowed_signature_not_recorded :
  shadowed_go =
    chars "func (a b) " ++ signature (chars "s") (chars "*") (chars "Square") (chars "Area")
    ++ chars "()" /\
  exists self',
    analyze_file example_relpath (init "/src") "/src/a.go" shadowed_go = Ok self' /\
    methods self' !! "Square" = None /\
    methods self' !! "b" = Some ["func"].
Proof.
  split; [reflexivity|]. eexists. split; [apply analyze_file_Ok|].
  split; by vm_compute.
Qed.

(** Two files of package [foo], in [same_package_collects_both_files]. *)
Lemma same_package_witness :
  exists self1 self12 self2 self21 files,
    analyze_file example_relpath (init "/src") "/src/a.go" foo_a_go = Ok self1 /\
    analyze_file example_relpath self1 "/src/sub/b.go" foo_b_go = Ok self12 /\
    analyze_file example_relpath (init "/src") "/src/sub/b.go" foo_b_go = Ok self2 /\
    analyze_file example_relpath self2 "/src/a.go" foo_a_go = Ok self21 /\
    packages self12 !! "foo" = Some files /\
    packages self21 !! "foo" = Some files /\
    "a.go" ∈ files /\
    "sub/b.go" ∈ files.
Proof.
  apply (same_package_collects_both_files example_relpath (init "/src")
           "/src/a.go" foo_a_go "/src/sub/b.go" foo_b_go "foo"); reflexivity.
Defined.

(** The declarations [type X interface {}] and [type X struct {}], in
    [empty_body_not_recorded]. *)
Lemma empty_body_witness :
  (forall post,
     match_at interface_re (chars "type X interface {}" ++ post) = None) /\
  (forall post,
     match_at struct_re (chars "type X struct {}" ++ post) = None) /\
  (forall kw pre post, kw = "interface" \/ kw = "struct" ->
     "{"%char ∉ pre -> "{"%char ∉ post ->
     exists self',
       analyze_file example_relpath (init "/src") "/src/x.go"
         (pre ++ empty_decl (chars " ") (chars "X") (chars " ") kw (chars " ") ++ post)
       = Ok self' /\
       interfaces self' = interfaces (init "/src") /\
       structs self' = structs (init "/src")) /\
  (forall content m,
     m ∈ finditer interface_re content \/ m ∈ finditer struct_re content ->
     grp m 1 <> []).
Proof.
  apply (empty_body_not_recorded example_relpath (init "/src") "/src/x.go"
           (chars " ") (chars "X") (chars " ") (chars " "));
    first [done | class_run].
Defined.

(** * Further properties *)

(** ** A file analysed twice, keywords, other files *)

Lemma mtoks_lit_inv s ts caps t r :
  mtoks (lit s ++ ts) caps t = Some r ->
  exists t', t = chars s ++ t' /\ mtoks ts caps t' = Some r.
Proof.
  revert t. induction s as [|c s IH]; intros t; simpl; [eauto|].
  destruct t as [|x t]; [done|]. destruct (Ascii.eqb_spec x c) as [->|]; [|done].
  intros (t' & -> & H)%IH. eauto.
Qed.

Lemma match_at_keyword kw ts rest m :
  match_at (lit kw ++ ts) rest = Some m -> exists rest', rest = chars kw ++ rest'.
Proof. intros (t' & -> & _)%mtoks_lit_inv. eauto. Qed.

Lemma finditer_without_keyword kw ts content :
  ~ occurs kw content -> finditer (lit kw ++ ts) content = [].
Proof.
  intros Hno. apply finditer_nil, search_None. intros pre rest ->.
  destruct (match_at _ rest) as [m|] eqn:Hm; [|done].
  apply match_at_keyword in Hm as [rest' ->]. destruct Hno. by exists pre, rest'.
Qed.

Lemma occurs_after kw1 mid kw2 content :
  (exists pre post, content = pre ++ chars kw1 ++ mid ++ chars kw2 ++ post) ->
  occurs kw2 content.
Proof.
  intros (pre & post & ->). exists (pre ++ chars kw1 ++ mid), post.
  by rewrite <- !(assoc_L (++)).
Qed.

Lemma put_decls_twice (d : gmap string (list string)) l :
  foldl put_decl (foldl put_decl d l) l = foldl put_decl d l.
Proof.
  rewrite (put_decls_union (foldl put_decl d l)), (put_decls_union d).
  by rewrite (assoc_L (∪)), (idemp_L (∪)).
Qed.

Lemma add_file_twice (d : gmap string (gset string)) n r :
  add_file (add_file d n r) n r = add_file d n r.
Proof.
  unfold add_file. rewrite lookup_insert_eq, insert_insert_eq. simpl.
  f_equal. set_solver.
Qed.

Section Extras.
Variable relpath : string -> string -> string.
Variable path_join : string -> string -> string.

(** X1.  Analysing the same file a second time changes nothing in Packages,
    Imports, Interfaces and Structs, but appends the file's method names to
    every Methods list once more. *)
Theorem analyze_file_twice self file_path content :
  exists self1 self2,
    analyze_file relpath self file_path content = Ok self1 /\
    analyze_file relpath self1 file_path content = Ok self2 /\
    packages self2 = packages self1 /\
    imports self2 = imports self1 /\
    interfaces self2 = interfaces self1 /\
    structs self2 = structs self1 /\
    (forall ty,
       default [] (methods self2 !! ty) =
       default [] (methods self !! ty) ++
       methods_for ty (method_sigs content) ++ methods_for ty (method_sigs content)).
Proof.
  do 2 eexists. split; [apply analyze_file_Ok|]. split; [apply analyze_file_Ok|].
  cbn [analyze_file_result packages imports interfaces structs methods root_dir].
  repeat split.
  - destruct (declared_package content); [apply add_file_twice|done].
  - destruct (findall import_re content); [done|apply insert_insert_eq].
  - apply put_decls_twice.
  - apply put_decls_twice.
  - intros ty. rewrite !append_methods_default. by rewrite <- (assoc_L (++)).
Qed.

(** X2.  A collection changes only when the keywords of its pattern occur in
    the text: Packages needs [package], Imports [import], Interfaces [type]
    and [interface], Structs [type] and [struct], Methods [func]. *)
Theorem keywords_gate_the_scanners self file_path content :
  exists self', analyze_file relpath self file_path content = Ok self' /\
    (~ occurs "package" content -> packages self' = packages self) /\
    (~ occurs "import" content -> imports self' = imports self) /\
    (~ occurs "type" content \/ ~ occurs "interface" content ->
     interfaces self' = interfaces self) /\
    (~ occurs "type" content \/ ~ occurs "struct" content ->
     structs self' = structs self) /\
    (~ occurs "func" content -> methods self' = methods self).
Proof.
  eexists. split; [apply analyze_file_Ok|].
  cbn [analyze_file_result packages imports interfaces structs methods].
  assert (forall kw, ~ occurs "type" content \/ ~ occurs kw content ->
                     finditer (decl_re kw) content = []) as Hdecl.
  { intros kw [Hno|Hno]; [by apply finditer_without_keyword|].
    apply finditer_nil, search_None. intros pre rest ->.
    destruct (match_at _ rest) as [m|] eqn:Hm; [|done].
    apply match_at_sound in Hm as (w & -> & Hd).
    apply decl_re_den in Hd as (u1 & g & u2 & u3 & body & -> & _).
    destruct Hno. exists (pre ++ chars "type" ++ u1 ++ g ++ u2).
    eexists. by rewrite <- !(assoc_L (++)). }
  repeat split.
  - intros Hno. unfold declared_package.
    destruct (search package_re content) as [m|] eqn:Hs; [|done].
    apply finditer_without_keyword with (ts := [T (Plus CSpace); Grp [Plus CWord]])
      in Hno.
    apply finditer_nil in Hno. fold package_re in Hno. congruence.
  - intros Hno. unfold findall, import_re.
    by rewrite finditer_without_keyword.
  - intros Hno. unfold interface_decls. rewrite interface_re_decl.
    by rewrite Hdecl.
  - intros Hno. unfold struct_decls. rewrite struct_re_decl. by rewrite Hdecl.
  - intros Hno. unfold method_sigs, method_re. by rewrite finditer_without_keyword.
Qed.

Lemma for_each_files_only_go root (files : list (string * text)) self :
  for_each files
    (fun self '(file, content) =>
       if endswith file ".go"
       then analyze_file relpath self (path_join root file) content
       else Ok self) self =
  for_each (filter (fun f => endswith f.1 ".go" = true) files)
    (fun self '(file, content) =>
       if endswith file ".go"
       then analyze_file relpath self (path_join root file) content
       else Ok self) self.
Proof.
  revert self. induction files as [|[file content] files IH]; intros self; [done|].
  destruct (endswith file ".go") eqn:Hgo.
  - rewrite filter_cons_True by done. simpl. rewrite Hgo.
    destruct (analyze_file _ _ _ _); simpl; [apply IH|done].
  - rewrite filter_cons_False by (simpl; congruence). simpl. rewrite Hgo. apply IH.
Qed.

Lemma analyze_directory_only_go self walk :
  analyze_directory relpath path_join self (only_go walk) =
  analyze_directory relpath path_join self walk.
Proof.
  unfold analyze_directory, only_go. revert self.
  induction walk as [|[root files] walk' IH]; intros self; [done|].
  csimpl. rewrite <- for_each_files_only_go.
  destruct (for_each files _ self); simpl; [apply IH|done].
Qed.

(** X5.  Files whose name does not end in [.go] are invisible to
    [analyze_directory]: the walk without them has the same outcome; and when
    the walk has no [.go] file at all, no file is analysed and the analyzer is
    returned as it was. *)
Theorem analyze_directory_skips_other_files self walk :
  analyze_directory relpath path_join self (only_go walk) =
  analyze_directory relpath path_join self walk /\
  (go_files path_join walk = [] ->
   analyze_directory relpath path_join self walk = Ok self).
Proof.
  split; [apply analyze_directory_only_go|].
  intros Hnone. by rewrite analyze_directory_Ok, Hnone.
Qed.
End Extras.

(** ** What a directory leaves in the analyzer *)

Section DirectoryExtras.
Variable relpath : string -> string -> string.
Variable path_join : string -> string -> string.

Lemma grows_refl s : grows s s.
Proof.
  repeat split; try done.
  - intros k files ->. eauto.
  - intros k l ->. exists []. by rewrite (right_id_L [] (++)).
Qed.

Lemma grows_trans s1 s2 s3 : grows s1 s2 -> grows s2 s3 -> grows s1 s3.
Proof.
  intros (Hr & Hp & Hm & Hi & Hf & Hs) (Hr' & Hp' & Hm' & Hi' & Hf' & Hs').
  split; [congruence|]. split; [|split; [|by repeat split; etrans]].
  - intros k files (f2 & H2 & Hsub)%Hp. apply Hp' in H2 as (f3 & H3 & Hsub').
    exists f3. split; [done|]. by etrans.
  - intros k l (l2 & H2)%Hm. apply Hm' in H2 as (l3 & H3).
    exists (l2 ++ l3). by rewrite (assoc_L (++)).
Qed.

Lemma visit_grows s f : grows s (visit relpath s f).
Proof.
  unfold visit, grows.
  cbn [analyze_file_result root_dir packages methods imports interfaces structs].
  repeat split.
  - intros k files Hk. destruct (declared_package f.2) as [n|]; [|eauto].
    rewrite add_file_lookup. destruct (decide (n = k)) as [->|]; [|eauto].
    rewrite Hk. simpl. eexists. split; [done|]. set_solver.
  - intros k l Hk. rewrite append_methods_lookup, Hk. simpl.
    destruct (methods_for k _) as [|m ms]; [|eauto].
    exists []. by rewrite (right_id_L [] (++)).
  - destruct (findall import_re f.2); [done|]. rewrite dom_insert_L. set_solver.
  - rewrite put_decls_dom. set_solver.
  - rewrite put_decls_dom. set_solver.
Qed.

Lemma foldl_visit_grows l s : grows s (foldl (visit relpath) s l).
Proof.
  revert s. induction l as [|f l IH]; intros s; [apply grows_refl|].
  simpl. eapply grows_trans; [apply visit_grows|apply IH].
Qed.

Lemma foldl_visit_root_dir l s : root_dir (foldl (visit relpath) s l) = root_dir s.
Proof. apply foldl_visit_grows. Qed.

(** X6.  [analyze_directory] never raises and only populates: the root
    directory is kept, every Packages set keeps its paths, every Methods list
    is extended at its end, and no key leaves Imports, Interfaces or
    Structs. *)
Theorem analyze_directory_monotone self walk :
  exists self',
    analyze_directory relpath path_join self walk = Ok self' /\
    root_dir self' = root_dir self /\
    (forall k files, packages self !! k = Some files ->
       exists files', packages self' !! k = Some files' /\ files ⊆ files') /\
    (forall k l, methods self !! k = Some l ->
       exists l', methods self' !! k = Some (l ++ l')) /\
    dom (imports self) ⊆ dom (imports self') /\
    dom (interfaces self) ⊆ dom (interfaces self') /\
    dom (structs self) ⊆ dom (structs self').
Proof.
  eexists. split; [apply analyze_directory_Ok|]. apply foldl_visit_grows.
Qed.

Lemma foldl_visit_packages l s n rel :
  rel ∈ default ∅ (packages (foldl (visit relpath) s l) !! n) <->
  rel ∈ default ∅ (packages s !! n) \/
  exists p c, (p, c) ∈ l /\ declared_package c = Some n /\ rel = relpath p (root_dir s).
Proof.
  revert s. induction l as [|[p c] l IH]; intros s; simpl.
  - split; [auto|]. intros [?|(p & c & Hin & _)]; [done|by apply elem_of_nil in Hin].
  - rewrite IH. unfold visit at 1 2. cbn [analyze_file_result packages root_dir fst snd].
    split.
    + intros [Hin|(p' & c' & Hin & Hd & ->)].
      * destruct (declared_package c) as [n'|] eqn:Hd; [|auto].
        rewrite add_file_lookup in Hin. destruct (decide (n' = n)) as [->|]; [|auto].
        simpl in Hin. apply elem_of_union in Hin as [?|Heq]; [auto|].
        apply elem_of_singleton in Heq as ->.
        right. exists p, c. split; [left|done].
      * right. exists p', c'. split; [by right|done].
    + intros [Hin|(p' & c' & [[= -> ->]|Hin]%elem_of_cons & Hd & ->)].
      * left. destruct (declared_package c) as [n'|]; [|done].
        rewrite add_file_lookup. destruct (decide (n' = n)) as [->|]; [|done].
        simpl. set_solver.
      * left. rewrite Hd, add_file_lookup, decide_True by done. simpl. set_solver.
      * right. eauto.
Qed.

Lemma foldl_visit_imports_dom l s k :
  k ∈ dom (imports (foldl (visit relpath) s l)) <->
  k ∈ dom (imports s) \/ exists c, (k, c) ∈ l /\ findall import_re c <> [].
Proof.
  revert s. induction l as [|[p c] l IH]; intros s; simpl.
  - split; [auto|]. intros [?|(c & Hin & _)]; [done|by apply elem_of_nil in Hin].
  - rewrite IH. unfold visit at 1. cbn [analyze_file_result imports fst snd]. split.
    + intros [Hin|(c' & Hin & Hne)].
      * destruct (findall import_re c) eqn:Hf; [auto|].
        rewrite dom_insert_L in Hin.
        apply elem_of_union in Hin as [Heq|?]; [|auto].
        apply elem_of_singleton in Heq as ->.
        right. exists c. split; [left|]. by rewrite Hf.
      * right. exists c'. split; [by right|done].
    + intros [Hin|(c' & [[= -> ->]|Hin]%elem_of_cons & Hne)].
      * left. destruct (findall import_re c); [done|]. rewrite dom_insert_L. set_solver.
      * left. destruct (findall import_re c); [done|]. rewrite dom_insert_L. set_solver.
      * right. eauto.
Qed.

(** X7.  From a fresh analyzer, a relative path is listed under a package
    exactly when some visited [.go] file with that path declares the package
    first, and a path is a key of Imports exactly when some visited [.go] file
    of that path holds an import block. *)
Theorem analyze_directory_provenance root walk :
  exists self',
    analyze_directory relpath path_join (init root) walk = Ok self' /\
    (forall n rel,
       rel ∈ default ∅ (packages self' !! n) <->
       exists p c, (p, c) ∈ go_files path_join walk /\
                   declared_package c = Some n /\ rel = relpath p root) /\
    (forall p,
       p ∈ dom (imports self') <->
       exists c, (p, c) ∈ go_files path_join walk /\ findall import_re c <> []).
Proof.
  eexists. split; [apply analyze_directory_Ok|]. split.
  - intros n rel. rewrite foldl_visit_packages. simpl. rewrite lookup_empty. simpl.
    split; [intros [Hin|?]; [by apply elem_of_empty in Hin|done]|auto].
  - intros p. rewrite foldl_visit_imports_dom. simpl. rewrite dom_empty_L.
    split; [intros [Hin|?]; [by apply elem_of_empty in Hin|done]|auto].
Qed.

Lemma foldl_visit_methods l s ty :
  default [] (methods (foldl (visit relpath) s l) !! ty) =
  default [] (methods s !! ty) ++
  concat ((fun f => methods_for ty (method_sigs f.2)) <$> l).
Proof.
  revert s. induction l as [|f l IH]; intros s; simpl.
  - by rewrite (right_id_L [] (++)).
  - rewrite IH. unfold visit at 1. cbn [analyze_file_result methods].
    rewrite append_methods_default. by rewrite <- (assoc_L (++)).
Qed.

(** X8.  The Methods list of a type after [analyze_directory] is its earlier
    list followed by the method names of the visited files, file after file in
    the order of the walk. *)
Theorem analyze_directory_methods_in_visit_order self walk :
  exists self',
    analyze_directory relpath path_join self walk = Ok self' /\
    forall ty,
      default [] (methods self' !! ty) =
      default [] (methods self !! ty) ++
      concat ((fun f => methods_for ty (method_sigs f.2)) <$> go_files path_join walk).
Proof.
  eexists. split; [apply analyze_directory_Ok|]. intros ty. apply foldl_visit_methods.
Qed.

Lemma foldl_visit_structs_untouched l s name :
  (forall f, f ∈ l -> file_structs f.2 !! name = None) ->
  structs (foldl (visit relpath) s l) !! name = structs s !! name.
Proof.
  revert s. induction l as [|f l IH]; intros s Hno; [done|].
  simpl. rewrite IH by (intros g Hg; apply Hno; by right).
  unfold visit. cbn [analyze_file_result structs].
  rewrite put_decls_lookup. fold (file_structs f.2). rewrite Hno; [done|left].
Qed.

Lemma foldl_visit_interfaces_untouched l s name :
  (forall f, f ∈ l -> file_interfaces f.2 !! name = None) ->
  interfaces (foldl (visit relpath) s l) !! name = interfaces s !! name.
Proof.
  revert s. induction l as [|f l IH]; intros s Hno; [done|].
  simpl. rewrite IH by (intros g Hg; apply Hno; by right).
  unfold visit. cbn [analyze_file_result interfaces].
  rewrite put_decls_lookup. fold (file_interfaces f.2). rewrite Hno; [done|left].
Qed.

(** X9.  Over a directory the last definition wins: when a visited file
    defines a struct (an interface) and no file visited after it defines that
    name, the entry after the walk is the one of that file. *)
Theorem analyze_directory_last_definition_wins self walk before p c later name :
  go_files path_join walk = before ++ (p, c) :: later ->
  exists self',
    analyze_directory relpath path_join self walk = Ok self' /\
    (forall fields,
       file_structs c !! name = Some fields ->
       (forall f, f ∈ later -> file_structs f.2 !! name = None) ->
       structs self' !! name = Some fields) /\
    (forall ms,
       file_interfaces c !! name = Some ms ->
       (forall f, f ∈ later -> file_interfaces f.2 !! name = None) ->
       interfaces self' !! name = Some ms).
Proof.
  intros Hwalk. eexists. split; [apply analyze_directory_Ok|].
  rewrite Hwalk, foldl_app. simpl. split.
  - intros fields Hc Hlater. rewrite foldl_visit_structs_untouched by done.
    unfold visit. cbn [analyze_file_result structs fst snd].
    rewrite put_decls_lookup. fold (file_structs c). by rewrite Hc.
  - intros ms Hc Hlater. rewrite foldl_visit_interfaces_untouched by done.
    unfold visit. cbn [analyze_file_result interfaces fst snd].
    rewrite put_decls_lookup. fold (file_interfaces c). by rewrite Hc.
Qed.
End DirectoryExtras.

(** In the walk of [a.go], [README.md], [b.go], the struct [Foo] of [b.go] is
    the one that stays. *)
Lemma last_definition_wins_witness :
  go_files example_join walk_ab =
    [("/src/a.go", foo_a_go)] ++ ("/src/b.go", foo_b_go) :: [] /\
  file_structs foo_b_go !! "Foo" = Some ["B"] /\
  exists self',
    analyze_directory example_relpath example_join (init "/src") walk_ab = Ok self' /\
    structs self' !! "Foo" = Some ["B"].
Proof.
  split; [reflexivity|]. split; [by vm_compute|].
  destruct (analyze_directory_last_definition_wins example_relpath example_join
              (init "/src") walk_ab [("/src/a.go", foo_a_go)] "/src/b.go" foo_b_go
              [] "Foo" eq_refl) as (self' & Hrun & Hstructs & _).
  exists self'. split; [exact Hrun|].
  apply Hstructs; [by vm_compute|].
  intros f Hf. by apply elem_of_nil in Hf.
Defined.

(** ** The first reading of lazy and greedy runs *)

Section Priorities.
Context {R : Type}.
Implicit Types (k : text -> option R) (s w : text).

(** A lazy run stops at the first position where the rest of the pattern
    succeeds. *)
Lemma lazy_first p k s r :
  lazy p k s = Some r ->
  exists w s', s = w ++ s' /\ Forall (fun a => p a = true) w /\ k s' = Some r /\
    forall w1 w2, w = w1 ++ w2 -> w2 <> [] -> k (w2 ++ s') = None.
Proof.
  induction s as [|a s IH]; simpl; intros H.
  - destruct (k []) eqn:Hk; [|done]. exists [], []. simplify_eq.
    split; [done|]. split; [done|]. split; [done|]. intros w1 w2 Hw. symmetry in Hw.
    by apply app_eq_nil in Hw as [_ ->].
  - destruct (k (a :: s)) eqn:Hk.
    + exists [], (a :: s). simplify_eq. split; [done|]. split; [done|]. split; [done|].
      intros w1 w2 Hw. symmetry in Hw. by apply app_eq_nil in Hw as [_ ->].
    + destruct (p a) eqn:Hp; [|done].
      destruct (IH H) as (w & s' & -> & Hw & Hk' & Hmin).
      exists (a :: w), s'. split; [done|]. split; [by constructor|]. split; [done|].
      intros [|b w1] w2 Heq Hne; simpl in Heq.
      * by subst.
      * injection Heq as -> ->. by apply (Hmin w1).
Qed.

Lemma greedy_None p k w s' :
  greedy p k (w ++ s') = None -> Forall (fun a => p a = true) w -> k s' = None.
Proof.
  intros Hg Hw. destruct (k s') eqn:Hk; [|done].
  destruct (greedy_complete p k w s' Hw) as [r' Hr]; [eauto|]. congruence.
Qed.

(** A greedy run is the longest one after which the rest of the pattern
    succeeds. *)
Lemma greedy_longest p k s r :
  greedy p k s = Some r ->
  exists w s', s = w ++ s' /\ Forall (fun a => p a = true) w /\ k s' = Some r /\
    forall w' s'', s = w' ++ s'' -> Forall (fun a => p a = true) w' ->
      length w < length w' -> k s'' = None.
Proof.
  induction s as [|a s IH]; simpl; intros H.
  - exists [], []. split; [done|]. split; [done|]. split; [done|]. intros w' s'' Heq _ Hlen.
    symmetry in Heq. apply app_eq_nil in Heq as [-> _]. simpl in Hlen. lia.
  - destruct (p a) eqn:Hp.
    + destruct (greedy p k s) as [r'|] eqn:Hg.
      * destruct (IH H) as (w & s' & -> & Hw & Hk & Hmax).
        exists (a :: w), s'. split; [done|]. split; [by constructor|]. split; [done|].
        intros [|b w'] s'' Heq Hw' Hlen; simpl in *; [lia|].
        injection Heq as -> Heq. apply (Hmax w'); [done| |lia].
        by apply Forall_cons_1 in Hw' as [_ ?].
      * exists [], (a :: s). split; [done|]. split; [done|]. split; [done|].
        intros [|b w'] s'' Heq Hw' Hlen; simpl in *; [lia|].
        injection Heq as -> ->. apply (greedy_None p k w'); [done|].
        by apply Forall_cons_1 in Hw' as [_ ?].
    + exists [], (a :: s). split; [done|]. split; [done|]. split; [done|].
      intros [|b w'] s'' Heq Hw' Hlen; simpl in *; [lia|].
      injection Heq as -> ->. apply Forall_cons_1 in Hw' as [? _]. congruence.
Qed.
End Priorities.

(** What follows the group of the import pattern: [\s*\)]. *)
Lemma import_tail_den (u rest : text) acc :
  all_in CSpace u -> is_Some (mtoks ([T (Star CSpace)] ++ lit ")") acc (u ++ chars ")" ++ rest)).
Proof.
  intros Hu. rewrite (assoc_L (++)). apply (mtoks_complete _ _ _ []).
  cbn [app pat_den atom_den]. exists u, (chars ")"). split; [done|]. split; [exact Hu|].
  apply (pat_den_lit ")" []). by exists [].
Qed.

Lemma import_tail_sound acc s m :
  mtoks ([T (Star CSpace)] ++ lit ")") acc s = Some m ->
  exists u, all_in CSpace u /\ s = u ++ chars ")" ++ after m /\ groups m = rev acc.
Proof.
  intros (w & caps & -> & Hd & Hg)%mtoks_sound.
  cbn [app pat_den atom_den] in Hd. destruct Hd as (u & w2 & -> & Hu & Hd).
  apply (pat_den_lit ")" []) in Hd as (w' & -> & [-> ->]).
  exists u. rewrite (right_id_L [] (++)) in Hg. split; [exact Hu|]. split; [|exact Hg].
  by rewrite <- !(assoc_L (++)).
Qed.

Lemma import_block_trimmed rest m :
  match_at import_re rest = Some m ->
  exists block,
    groups m = [block] /\
    (")"%char ∉ block) /\
    (forall x b, block = x :: b -> is_space x = false) /\
    (forall b x, block = b ++ [x] -> is_space x = false).
Proof.
  unfold match_at, import_re. intros Hm.
  apply mtoks_lit_inv in Hm as (t1 & -> & Hm). cbn [app mtoks] in Hm.
  apply matom_sound in Hm as (u0 & t2 & -> & _ & Hm).
  apply mtoks_lit_inv in Hm as (t3 & -> & Hm). cbn [app mtoks matom] in Hm.
  apply greedy_longest in Hm as (u1 & t4 & -> & Hu1 & Hm & Hmax).
  cbn [matoms matom] in Hm.
  apply lazy_first in Hm as (block & t5 & -> & _ & Hm & Hmin).
  rewrite captured_app in Hm.
  pose proof Hm as (u2 & Hu2 & -> & Hg)%import_tail_sound.
  exists block. split; [done|]. split; [|split].
  - intros (b1 & b2 & ->)%list_elem_of_split.
    specialize (Hmin b1 (")"%char :: b2) eq_refl ltac:(done)).
    destruct (import_tail_den [] (b2 ++ u2 ++ chars ")" ++ after m)
                [captured ((b1 ++ ")"%char :: b2) ++ u2 ++ chars ")" ++ after m)
                          ((")"%char :: b2) ++ u2 ++ chars ")" ++ after m)])
      as [r Hr]; [done|].
    simpl in Hr, Hmin. rewrite <- (assoc_L (++)) in Hmin. simpl in Hmin. congruence.
  - intros x b ->. destruct (is_space x) eqn:Hx; [exfalso|done].
    assert (matoms [LazyStar CAny]
              (fun s' => mtoks ([T (Star CSpace)] ++ lit ")")
                           [captured (b ++ u2 ++ chars ")" ++ after m) s'] s')
              (b ++ u2 ++ chars ")" ++ after m) = None) as Hnone.
    { apply (Hmax (u1 ++ [x])).
      - by rewrite <- (assoc_L (++)).
      - apply Forall_app. split; [done|]. by constructor.
      - rewrite length_app. simpl. lia. }
    destruct (lazy_complete (in_class CAny)
                (fun s' => mtoks ([T (Star CSpace)] ++ lit ")")
                             [captured (b ++ u2 ++ chars ")" ++ after m) s'] s')
                b (u2 ++ chars ")" ++ after m)) as [r Hr].
    + by apply Forall_forall.
    + by apply import_tail_den.
    + cbn [matoms matom] in Hnone. congruence.
  - intros b x ->. destruct (is_space x) eqn:Hx; [exfalso|done].
    specialize (Hmin b [x] eq_refl ltac:(done)).
    destruct (import_tail_den (x :: u2) (after m)
                [captured ((b ++ [x]) ++ u2 ++ chars ")" ++ after m)
                          ([x] ++ u2 ++ chars ")" ++ after m)])
      as [r Hr]; [by constructor|].
    simpl in Hr, Hmin. congruence.
Qed.

(** ** The shape of the recorded names *)

Lemma pat_den_first_group c ts w caps :
  pat_den (Grp [Plus c] :: ts) w caps ->
  exists g caps', caps = g :: caps' /\ g <> [] /\ all_in c g.
Proof.
  cbn [pat_den]. intros (w1 & w2 & caps' & _ & Hg & _ & ->).
  apply atoms_den_singleton in Hg as [Hne Hg]. eauto.
Qed.

Lemma finditer_group_den ts content m :
  m ∈ finditer ts content -> exists w, pat_den ts w (groups m).
Proof.
  intros (pre & rest & _ & Hm)%finditer_elem.
  apply match_at_sound in Hm as (w & _ & Hd). eauto.
Qed.

Lemma entry_is_identifier ts content e :
  e ∈ finditer (Grp [Plus CWord] :: ts) content -> identifier (str (grp e 0)).
Proof.
  intros (w & Hd)%finditer_group_den.
  apply pat_den_first_group in Hd as (g & caps' & Hc & Hne & Hg).
  exists g. unfold grp. by rewrite Hc.
Qed.

Lemma decl_is_identifier kw entry_re entries content m :
  entry_re = Grp [Plus CWord] :: entries ->
  m ∈ finditer (decl_re kw) content ->
  identifier (decl_of entry_re m).1 /\ Forall identifier (decl_of entry_re m).2.
Proof.
  intros -> (w & Hd)%finditer_group_den.
  apply decl_re_den in Hd
    as (u1 & g & u2 & u3 & body & _ & _ & _ & Hgn & Hg & _ & _ & _ & _ & _ & Hc).
  unfold decl_of, grp. rewrite Hc. simpl. split; [by exists g|].
  apply Forall_fmap, Forall_forall. intros e He. by eapply entry_is_identifier.
Qed.

Lemma method_re_den w caps :
  pat_den method_re w caps ->
  exists v ty mn, caps = [v; ty; mn] /\
    v <> [] /\ all_in CWord v /\ ty <> [] /\ all_in CWord ty /\
    mn <> [] /\ all_in CWord mn.
Proof.
  unfold method_re. intros H. apply pat_den_lit in H as (w1 & -> & H).
  cbn [app pat_den atom_den] in H. destruct H as (u0 & w2 & -> & _ & H).
  apply pat_den_lit in H as (w3 & -> & H). cbn [app pat_den atom_den] in H.
  destruct H as (v & w4 & caps1 & -> & Hv & H & ->).
  apply atoms_den_singleton in Hv as [Hvn Hv].
  destruct H as (u1 & w5 & -> & _ & o & w6 & -> & _ & ty & w7 & caps2 & -> & Hty & H & ->).
  apply atoms_den_singleton in Hty as [Htyn Hty].
  apply pat_den_lit in H as (w8 & -> & H). cbn [app pat_den atom_den] in H.
  destruct H as (u2 & w9 & -> & _ & mn & w10 & caps3 & -> & Hmn & [-> ->] & ->).
  apply atoms_den_singleton in Hmn as [Hmnn Hmn].
  exists v, ty, mn. done.
Qed.

Lemma method_sig_identifiers content e :
  e ∈ method_sigs content -> identifier e.1 /\ identifier e.2.
Proof.
  unfold method_sigs. intros (m & -> & Hm)%list_elem_of_fmap.
  apply finditer_group_den in Hm as (w & Hd).
  apply method_re_den in Hd as (v & ty & mn & Hc & _ & _ & Htyn & Hty & Hmnn & Hmn).
  unfold grp. rewrite Hc. simpl. split; [by exists ty|by exists mn].
Qed.

Lemma quoted_re_den w caps :
  pat_den quoted_re w caps ->
  exists g, caps = [g] /\ g <> [] /\ (dquote ∉ g).
Proof.
  unfold quoted_re. cbn [pat_den atom_den].
  intros (w1 & w2 & -> & _ & g & w3 & caps' & -> & Hg & (w4 & w5 & -> & _ & [-> ->]) & ->).
  apply atoms_den_singleton in Hg as [Hgn Hg]. exists g. split; [done|]. split; [done|].
  intros Hin. unfold all_in in Hg. rewrite Forall_forall in Hg. apply Hg in Hin.
  by vm_compute in Hin.
Qed.

(** A group is a piece of the text that was matched. *)
Lemma pat_den_group_within ts w caps g x :
  pat_den ts w caps -> g ∈ caps -> x ∈ g -> x ∈ w.
Proof.
  revert w caps. induction ts as [|[a|l] ts IH]; simpl; intros w caps.
  - intros [_ ->] Hg. by apply elem_of_nil in Hg.
  - intros (w1 & w2 & -> & _ & Hd) Hg Hx. apply elem_of_app. right. by eapply IH.
  - intros (w1 & w2 & caps' & -> & _ & Hd & ->) Hg Hx. apply elem_of_app.
    apply elem_of_cons in Hg as [->|Hg]; [by left|]. right. by eapply IH.
Qed.

Lemma import_path_plain content i : i ∈ import_paths content -> plain_path i.
Proof.
  unfold import_paths. intros (block & Hi & Hb)%list_elem_of_bind.
  apply list_elem_of_fmap in Hi as (imp & -> & Himp).
  unfold findall in Hb. apply list_elem_of_fmap in Hb as (m & -> & Hm).
  apply finditer_elem in Hm as (pre & rest & _ & Hm).
  apply import_block_trimmed in Hm as (block & Hg & Hclose & _).
  rewrite Hg in Himp. simpl in Himp.
  apply finditer_elem in Himp as (pre' & rest' & Hsplit & Himp).
  apply match_at_sound in Himp as (w & Hw & Hd).
  pose proof Hd as (g & Hc & Hgn & Hq)%quoted_re_den.
  exists g. unfold grp. rewrite Hc. simpl. split; [done|]. split; [done|].
  split; [done|]. intros Hin. apply Hclose. rewrite Hsplit, Hw.
  rewrite !elem_of_app. right. left.
  eapply pat_den_group_within; [done| |done]. rewrite Hc. left.
Qed.

Lemma put_decls_lookup_inv (d : gmap string (list string)) l k v :
  foldl put_decl d l !! k = Some v -> d !! k = Some v \/ (k, v) ∈ l.
Proof.
  revert d. induction l as [|[k' v'] l IH]; intros d; simpl; [auto|].
  intros [H|H]%IH; [|right; by right].
  unfold put_decl in H. simpl in H. rewrite lookup_insert in H.
  destruct (decide (k' = k)) as [->|]; [|auto]. injection H as ->. right. left.
Qed.

Section NameExtras.
Variable relpath : string -> string -> string.

(** X3.  On ASCII text, every name [analyze_file] adds is a non-empty run of
    word characters:
    the package name, the keys and the entries of Interfaces and Structs, the
    keys and the entries of Methods; every import path it adds is non-empty
    and holds neither a double quote nor a closing parenthesis. *)
Theorem recorded_names_are_identifiers self file_path content :
  ascii_text content ->
  exists self', analyze_file relpath self file_path content = Ok self' /\
    (forall k, k ∈ dom (packages self') -> k ∈ dom (packages self) \/ identifier k) /\
    (forall k l, interfaces self' !! k = Some l ->
       interfaces self !! k = Some l \/ identifier k /\ Forall identifier l) /\
    (forall k l, structs self' !! k = Some l ->
       structs self !! k = Some l \/ identifier k /\ Forall identifier l) /\
    (forall k l, methods self' !! k = Some l ->
       methods self !! k = Some l \/
       identifier k /\
       exists new, l = default [] (methods self !! k) ++ new /\ Forall identifier new) /\
    (forall paths, imports self' !! file_path = Some paths ->
       imports self !! file_path = Some paths \/
       forall i, i ∈ paths -> plain_path i).
Proof.
  intros _. eexists. split; [apply analyze_file_Ok|].
  cbn [analyze_file_result packages interfaces structs methods imports].
  split; [|split; [|split; [|split]]].
  - intros k. unfold declared_package.
    destruct (search package_re content) as [m|] eqn:Hs; simpl; [|auto].
    unfold add_file. rewrite dom_insert_L.
    intros [Hk|?]%elem_of_union; [|auto]. apply elem_of_singleton in Hk as ->. right.
    apply search_Some in Hs as (pre & rest & _ & Hm & _).
    apply match_at_sound in Hm as (w & _ & Hd).
    apply package_re_den in Hd as (ws & id & _ & _ & _ & Hidn & Hid & Hc).
    exists id. unfold grp. by rewrite Hc.
  - intros k l [?|Hin]%put_decls_lookup_inv; [auto|]. right.
    unfold interface_decls in Hin. apply list_elem_of_fmap in Hin as (m & Heq & Hm).
    rewrite interface_re_decl in Hm.
    eapply (decl_is_identifier _ signature_re) in Hm; [|reflexivity].
    by rewrite <- Heq in Hm.
  - intros k l [?|Hin]%put_decls_lookup_inv; [auto|]. right.
    unfold struct_decls in Hin. apply list_elem_of_fmap in Hin as (m & Heq & Hm).
    rewrite struct_re_decl in Hm.
    eapply (decl_is_identifier _ field_re) in Hm; [|reflexivity].
    by rewrite <- Heq in Hm.
  - intros k l. rewrite append_methods_lookup.
    destruct (methods_for k (method_sigs content)) as [|m ms] eqn:Hms; [auto|].
    intros [= <-]. right.
    assert (forall x, x ∈ methods_for k (method_sigs content) ->
                      identifier k /\ identifier x) as Hall.
    { intros x. unfold methods_for. intros (e & -> & He)%list_elem_of_fmap.
      apply list_elem_of_filter in He as [<- He].
      by apply method_sig_identifiers in He. }
    rewrite Hms in Hall. split; [apply (Hall m); left|].
    eexists. split; [done|]. apply Forall_forall. intros x Hx. by apply Hall.
  - intros paths. destruct (findall import_re content); [auto|].
    rewrite lookup_insert_eq. intros [= <-]. right. intros i Hi.
    apply elem_of_list_to_set in Hi. by eapply import_path_plain.
Qed.

(** X4.  Every import block [findall] returns holds no closing parenthesis and
    neither starts nor ends with whitespace. *)
Theorem import_blocks_are_trimmed content :
  Forall (fun block =>
            (")"%char ∉ block) /\
            (forall x b, block = x :: b -> is_space x = false) /\
            (forall b x, block = b ++ [x] -> is_space x = false))
         (findall import_re content).
Proof.
  apply Forall_forall. intros block. unfold findall.
  intros (m & -> & Hm)%list_elem_of_fmap.
  apply finditer_elem in Hm as (pre & rest & _ & Hm).
  apply import_block_trimmed in Hm as (block & -> & H). exact H.
Qed.
End NameExtras.

(** The names [square_go] leaves in a fresh analyzer. *)
Lemma recorded_names_witness :
  ascii_text square_go /\
  exists self',
    analyze_file example_relpath (init "/src") "/src/shapes/square.go" square_go
      = Ok self' /\
    (forall k, k ∈ dom (packages self') -> identifier k) /\
    (forall k l, structs self' !! k = Some l -> identifier k /\ Forall identifier l) /\
    (forall k l, methods self' !! k = Some l -> identifier k /\ Forall identifier l) /\
    (forall paths, imports self' !! "/src/shapes/square.go" = Some paths ->
       forall i, i ∈ paths -> plain_path i).
Proof.
  split; [ascii_run|].
  destruct (recorded_names_are_identifiers example_relpath (init "/src")
              "/src/shapes/square.go" square_go)
    as (self' & Hrun & Hp & _ & Hs & Hm & Hi); [ascii_run|].
  exists self'. split; [exact Hrun|]. split; [|split; [|split]].
  - intros k Hk. destruct (Hp k Hk) as [Hin|?]; [|done].
    simpl in Hin. by rewrite dom_empty_L in Hin.
  - intros k l Hk. destruct (Hs k l Hk) as [Hin|?]; [|done].
    simpl in Hin. by rewrite lookup_empty in Hin.
  - intros k l Hk. destruct (Hm k l Hk) as [Hin|(? & new & -> & ?)].
    + simpl in Hin. by rewrite lookup_empty in Hin.
    + simpl. by rewrite lookup_empty.
  - intros paths Hk. destruct (Hi paths Hk) as [Hin|?]; [|done].
    simpl in Hin. by rewrite lookup_empty in Hin.
Defined.

(** ** Strings, sorting *)

Lemma chars_app s1 s2 : chars (s1 +:+ s2) = chars s1 ++ chars s2.
Proof. induction s1 as [|a s1 IH]; simpl; [done|]. by rewrite <- IH. Qed.

Lemma str_chars s : str (chars s) = s.
Proof. apply string_of_list_ascii_of_string. Qed.

Lemma chars_str t : chars (str t) = t.
Proof. apply list_ascii_of_string_of_list_ascii. Qed.

Lemma chars_inj s1 s2 : chars s1 = chars s2 -> s1 = s2.
Proof. intros H. by rewrite <- (str_chars s1), H, str_chars. Qed.

Lemma header_inj k1 k2 : header k1 = header k2 -> k1 = k2.
Proof.
  unfold header, nl. intros H. apply chars_inj. apply (f_equal chars) in H.
  rewrite !chars_app in H. simpl in H. injection H as H. by apply app_inv_tail in H.
Qed.

Lemma header_is_header k : is_header (header k).
Proof. done. Qed.

Lemma item_not_header x : ~ is_header (item x).
Proof. done. Qed.

Lemma headers_items (l : list string) : headers (item <$> l) = [].
Proof.
  unfold headers. induction l as [|x l IH]; [done|].
  rewrite fmap_cons, filter_cons_False by apply item_not_header. done.
Qed.

Lemma sorted_Permutation l : sorted l ≡ₚ l.
Proof. apply merge_sort_Permutation. Qed.

Lemma sorted_Sorted l : Sorted String.le (sorted l).
Proof. apply Sorted_merge_sort; apply _. Qed.

Lemma sorted_unique l1 l2 :
  Sorted String.le l1 -> Sorted String.le l2 -> l1 ≡ₚ l2 -> l1 = l2.
Proof. apply Sorted_unique; apply _. Qed.

Lemma StronglySorted_filter {A} (R : relation A) (P : A -> Prop)
    `{forall x, Decision (P x)} l :
  StronglySorted R l -> StronglySorted R (filter P l).
Proof.
  induction 1 as [|x l Hl IH Hx]; [constructor|].
  destruct (decide (P x)).
  - rewrite filter_cons_True by done. constructor; [done|].
    apply Forall_forall. intros y [_ Hy]%list_elem_of_filter.
    rewrite Forall_forall in Hx. auto.
  - by rewrite filter_cons_False.
Qed.

Lemma sorted_filter (P : string -> Prop) `{forall x, Decision (P x)} l :
  filter P (sorted l) = sorted (filter P l).
Proof.
  apply (StronglySorted_unique String.le).
  - apply StronglySorted_filter, Sorted_StronglySorted; [apply _|apply sorted_Sorted].
  - apply Sorted_StronglySorted; [apply _|apply sorted_Sorted].
  - by rewrite !sorted_Permutation.
Qed.

Lemma elem_of_sorted x l : x ∈ sorted l <-> x ∈ l.
Proof. by rewrite sorted_Permutation. Qed.

Lemma elem_of_sorted_items {V} (d : gmap string V) k v :
  (k, v) ∈ sorted_items d <-> d !! k = Some v.
Proof.
  unfold sorted_items. rewrite merge_sort_Permutation. apply elem_of_map_to_list.
Qed.

Lemma sorted_items_keys {V} (d : gmap string V) :
  (sorted_items d).*1 = sorted (elements (dom d)).
Proof.
  apply sorted_unique.
  - unfold sorted_items. eapply Sorted_fmap; [|apply Sorted_merge_sort].
    + by intros x y.
    + intros x y. apply (total String.le).
  - apply sorted_Sorted.
  - unfold sorted_items. rewrite merge_sort_Permutation, sorted_Permutation.
    apply NoDup_Permutation.
    + apply NoDup_fst_map_to_list.
    + apply NoDup_elements.
    + intros k. rewrite elem_of_elements, elem_of_dom. split.
      * intros ([k' v] & -> & Hin)%list_elem_of_fmap.
        apply elem_of_map_to_list in Hin. eauto.
      * intros [v Hv]. apply list_elem_of_fmap. exists (k, v). split; [done|].
        by apply elem_of_map_to_list.
Qed.

(** ** The loops of the report *)

Lemma for_each_print {A} (g : A -> list string)
    (body : list string -> A -> result (list string)) (l : list A) :
  (forall out x, x ∈ l -> body out x = Ok (out ++ g x)) ->
  forall out, for_each l body out = Ok (out ++ (l ≫= g)).
Proof.
  induction l as [|x l IH]; intros Hb out; simpl.
  - by rewrite (right_id_L [] (++)).
  - rewrite Hb by left. rewrite bind_Ok, IH by (intros; apply Hb; by right).
    by rewrite <- (assoc_L (++)).
Qed.

Lemma for_each_items (l : list string) out :
  for_each l (fun out x => Ok (print out (item x))) out = Ok (out ++ (item <$> l)).
Proof.
  rewrite (for_each_print (fun x => [item x])); [|done].
  do 2 f_equal.
Qed.

(** ** The sections of the report *)

Section ReportFacts.
Variable relpath : string -> string -> string.
Variable basename : string -> string.
Variable sep : ascii.

Lemma print_tree_Ok self walk out :
  print_tree basename sep self walk out = Ok (out ++ tree_lines basename sep self walk).
Proof.
  unfold print_tree, tree_lines. apply for_each_print.
  intros out' [root files] _. cbn [fst snd].
  rewrite (for_each_print
    (fun f => if endswith f ".go"
              then [spaces (4 * (tree_level sep self root + 1)) +:+ f] else [])).
  - unfold print. rewrite <- (assoc_L (++)). do 2 f_equal. simpl. f_equal.
    generalize (sorted files.*1). intros l. induction l as [|f l IH]; [done|].
    csimpl. destruct (endswith f ".go") eqn:Hgo.
    + rewrite filter_cons_True by done. csimpl. by f_equal.
    + rewrite filter_cons_False by congruence. done.
  - intros out'' f _. destruct (endswith f ".go"); [done|].
    by rewrite (right_id_L [] (++)).
Qed.

Lemma print_packages_Ok self out :
  print_packages self out = Ok (out ++ packages_lines self).
Proof.
  unfold print_packages, packages_lines. apply for_each_print.
  intros out' [k files] _. cbn [fst snd]. rewrite for_each_items.
  unfold print. by rewrite <- (assoc_L (++)).
Qed.

Lemma print_interfaces_Ok self out :
  print_interfaces self out = Ok (out ++ dict_lines (interfaces self)).
Proof.
  unfold print_interfaces, dict_lines. apply for_each_print.
  intros out' [k ms] _. cbn [fst snd]. rewrite for_each_items.
  unfold print. by rewrite <- (assoc_L (++)).
Qed.

Lemma print_structs_Ok self out :
  print_structs self out = Ok (out ++ structs_lines self).
Proof.
  unfold print_structs, structs_lines. apply for_each_print.
  intros out' [k ms] _. cbn [fst snd]. destruct (decide _) as [Hin|Hin].
  - apply elem_of_dom in Hin as [fields Hf]. unfold getitem. rewrite Hf, bind_Ok.
    rewrite for_each_items, bind_Ok, for_each_items. unfold print.
    by rewrite <- !(assoc_L (++)).
  - apply not_elem_of_dom in Hin. rewrite Hin. by rewrite (right_id_L [] (++)).
Qed.

Lemma print_imports_Ok self out :
  print_imports relpath self out = Ok (out ++ imports_lines relpath self).
Proof.
  unfold print_imports, imports_lines. apply for_each_print.
  intros out' [file X] _. cbn [fst snd]. destruct (decide _).
  - rewrite for_each_items. unfold print. by rewrite <- (assoc_L (++)).
  - by rewrite (right_id_L [] (++)).
Qed.

(** X11.  The section of structs lists a name exactly when it is a key of
    Methods and of Structs: a struct without methods is not printed, nor is a
    receiver type without a struct.  A listed struct shows all its fields and
    methods, and no [KeyError] is raised. *)
Theorem structs_section_needs_methods_and_fields self :
  exists out, print_structs self [] = Ok out /\
    (forall name,
       header name ∈ out <->
       name ∈ dom (methods self) /\ name ∈ dom (structs self)) /\
    (forall name fields ms,
       structs self !! name = Some fields -> methods self !! name = Some ms ->
       (forall f, f ∈ fields -> item f ∈ out) /\
       (forall m, m ∈ ms -> item m ∈ out)).
Proof.
  eexists. split; [apply print_structs_Ok|]. simpl. unfold structs_lines. split.
  - intros name. rewrite list_elem_of_bind. split.
    + intros ([k ms] & Hin & Hk). cbn [fst snd] in Hin.
      apply elem_of_sorted_items in Hk.
      destruct (structs self !! k) as [fields|] eqn:Hf; [|by apply elem_of_nil in Hin].
      simpl in Hin. apply elem_of_cons in Hin as [Heq|Hin].
      { apply header_inj in Heq as ->. rewrite !elem_of_dom. eauto. }
      apply elem_of_cons in Hin as [Heq|Hin]; [done|].
      apply elem_of_app in Hin as [Hin|Hin].
      { apply list_elem_of_fmap in Hin as (x & Heq & _). done. }
      apply elem_of_cons in Hin as [Heq|Hin]; [done|].
      apply list_elem_of_fmap in Hin as (x & Heq & _). done.
    + rewrite !elem_of_dom. intros [[ms Hm] [fields Hf]].
      exists (name, ms). cbn [fst snd]. rewrite Hf. split; [left|].
      by apply elem_of_sorted_items.
  - intros name fields ms Hf Hm.
    assert (forall line,
              line ∈ [header name; "  Fields:"] ++ (item <$> sorted fields) ++
                     ["  Methods:"] ++ (item <$> sorted ms) ->
              line ∈ sorted_items (methods self) ≫= (fun e =>
                match structs self !! e.1 with
                | Some fields =>
                    [header e.1; "  Fields:"] ++ (item <$> sorted fields) ++
                    ["  Methods:"] ++ (item <$> sorted e.2)
                | None => []
                end)) as Hblock.
    { intros line Hline. apply list_elem_of_bind. exists (name, ms). cbn [fst snd].
      rewrite Hf. split; [done|]. by apply elem_of_sorted_items. }
    split.
    + intros f Hin. apply Hblock. rewrite !elem_of_app. right. left.
      apply list_elem_of_fmap. exists f. by rewrite elem_of_sorted.
    + intros m Hin. apply Hblock. rewrite !elem_of_app. right. right. right.
      apply list_elem_of_fmap. exists m. by rewrite elem_of_sorted.
Qed.

(** X12.  The section of dependencies has a header for a file exactly when its
    Imports entry is not empty, under the path relative to the root; every
    import of every file is listed. *)
Theorem imports_section_skips_empty_sets self :
  exists out, print_imports relpath self [] = Ok out /\
    (forall r,
       header r ∈ out <->
       exists file paths,
         imports self !! file = Some paths /\ paths <> ∅ /\
         r = relpath file (root_dir self)) /\
    (forall file paths i,
       imports self !! file = Some paths -> i ∈ paths -> item i ∈ out).
Proof.
  eexists. split; [apply print_imports_Ok|]. simpl. unfold imports_lines. split.
  - intros r. rewrite list_elem_of_bind. split.
    + intros ([file X] & Hin & Hk). cbn [fst snd] in Hin.
      apply elem_of_sorted_items in Hk.
      destruct (decide (X ≠ ∅)); [|by apply elem_of_nil in Hin].
      apply elem_of_cons in Hin as [Heq|Hin].
      { apply header_inj in Heq as ->. eauto. }
      apply list_elem_of_fmap in Hin as (x & Heq & _). done.
    + intros (file & X & Hk & Hne & ->). exists (file, X). cbn [fst snd].
      rewrite decide_True by done. split; [left|]. by apply elem_of_sorted_items.
  - intros file X i Hk Hi. apply list_elem_of_bind. exists (file, X). cbn [fst snd].
    rewrite decide_True by set_solver. split; [|by apply elem_of_sorted_items].
    right. apply list_elem_of_fmap. exists i. rewrite elem_of_sorted.
    by rewrite elem_of_elements.
Qed.

Lemma headers_bind {A} (g : A -> list string) (h : A -> string) (l : list A) :
  (forall x, headers (g x) = [h x]) -> headers (l ≫= g) = h <$> l.
Proof.
  intros Hg. unfold headers in *. induction l as [|x l IH]; [done|].
  csimpl. by rewrite filter_app, Hg, IH.
Qed.

(** X13.  The section of packages has one header per package, in ascending
    order of the names, and lists every file of every package. *)
Theorem packages_section_in_name_order self :
  exists out, print_packages self [] = Ok out /\
    headers out = header <$> sorted (elements (dom (packages self))) /\
    (forall name files f,
       packages self !! name = Some files -> f ∈ files -> item f ∈ out).
Proof.
  eexists. split; [apply print_packages_Ok|]. simpl. unfold packages_lines. split.
  - rewrite (headers_bind _ (fun e => header e.1)).
    + by rewrite <- sorted_items_keys, <- list_fmap_compose.
    + intros [k files]. unfold headers. rewrite filter_cons_True by done.
      f_equal. apply headers_items.
  - intros name files f Hk Hf. apply list_elem_of_bind. exists (name, files).
    cbn [fst snd]. split; [|by apply elem_of_sorted_items].
    right. apply list_elem_of_fmap. exists f. rewrite elem_of_sorted.
    by rewrite elem_of_elements.
Qed.

(** X14.  The section of interfaces has one header per interface, in
    ascending order of the names, and lists every method of every interface. *)
Theorem interfaces_section_in_name_order self :
  exists out, print_interfaces self [] = Ok out /\
    headers out = header <$> sorted (elements (dom (interfaces self))) /\
    (forall name ms m,
       interfaces self !! name = Some ms -> m ∈ ms -> item m ∈ out).
Proof.
  eexists. split; [apply print_interfaces_Ok|]. simpl. unfold dict_lines. split.
  - rewrite (headers_bind _ (fun e => header e.1)).
    + by rewrite <- sorted_items_keys, <- list_fmap_compose.
    + intros [k ms]. unfold headers. rewrite filter_cons_True by done.
      f_equal. apply headers_items.
  - intros name ms m Hk Hm. apply list_elem_of_bind. exists (name, ms).
    cbn [fst snd]. split; [|by apply elem_of_sorted_items].
    right. apply list_elem_of_fmap. exists m. by rewrite elem_of_sorted.
Qed.
End ReportFacts.

(** ** The directory tree and [main] *)

Lemma remove_from_skip old (w s : text) :
  remove_from old (length w) (w ++ s) = remove_from old 0 s.
Proof.
  induction w as [|a w IH]; simpl; [|done].
  destruct s; done.
Qed.

Lemma remove_from_prefix old s :
  old <> [] -> remove_from old 0 (old ++ s) = remove_from old 0 s.
Proof.
  intros Hne. destruct old as [|a old]; [done|]. simpl.
  rewrite bool_decide_eq_true_2 by (by exists s).
  rewrite Nat.sub_0_r. apply remove_from_skip.
Qed.

Lemma remove_from_absent old s :
  (forall pre post, s <> pre ++ old ++ post) -> remove_from old 0 s = s.
Proof.
  induction s as [|a s IH]; intros Hno; [done|]. simpl.
  rewrite bool_decide_eq_false_2.
  - f_equal. apply IH. intros pre post ->. by apply (Hno (a :: pre) post).
  - intros [post Hp]. by apply (Hno [] post).
Qed.

Lemma filter_fst_fmap {A B} (p : A -> bool) (l : list (A * B)) :
  (filter (fun e => p e.1 = true) l).*1 = filter (fun a => p a = true) l.*1.
Proof.
  induction l as [|[a b] l IH]; [done|]. csimpl.
  destruct (p a) eqn:Hp.
  - rewrite !filter_cons_True by done. csimpl. by f_equal.
  - rewrite !filter_cons_False; [done|simpl; congruence|simpl; congruence].
Qed.

Lemma filter_idemp {A} (P : A -> Prop) `{forall x, Decision (P x)} (l : list A) :
  filter P (filter P l) = filter P l.
Proof.
  induction l as [|a l IH]; [done|]. destruct (decide (P a)).
  - rewrite !filter_cons_True by done. by f_equal.
  - by rewrite !filter_cons_False by done.
Qed.

Section TreeFacts.
Variable relpath : string -> string -> string.
Variable basename : string -> string.
Variable sep : ascii.
Variable path_join : string -> string -> string.

(** X15.  The indentation level of a directory: when the root directory is
    not the empty string and does not occur in the path below it, the level
    of [root_dir + rel] is the number of separators in [rel]. *)
Theorem tree_level_below_root self rel :
  root_dir self <> "" ->
  (forall pre post, chars rel <> pre ++ chars (root_dir self) ++ post) ->
  tree_level sep self (root_dir self +:+ rel) = count_sep sep rel.
Proof.
  intros Hne Hno. unfold tree_level, str_remove. rewrite decide_False by done.
  rewrite chars_app, remove_from_prefix.
  - by rewrite remove_from_absent, str_chars.
  - intros Heq. apply Hne. apply chars_inj. by rewrite Heq.
Qed.

(** X16.  The lines of the directory tree: one per visited directory and one
    per [.go] file, and every line is the line of a visited directory or
    names a [.go] file of one, at the indentation below its directory. *)
Theorem tree_lists_directories_and_go_files self walk :
  exists out, print_tree basename sep self walk [] = Ok out /\
    (forall line, line ∈ out ->
       exists root files, (root, files) ∈ walk /\
         (line = spaces (4 * tree_level sep self root) +:+ basename root +:+ "/" \/
          exists f, f ∈ files.*1 /\ endswith f ".go" = true /\
            line = spaces (4 * (tree_level sep self root + 1)) +:+ f)) /\
    length out =
    length walk +
    length (walk ≫= (fun d => filter (fun f => endswith f ".go" = true) d.2.*1)).
Proof.
  eexists. split; [apply print_tree_Ok|]. simpl. unfold tree_lines. split.
  - intros line ([root files] & Hin & Hd)%list_elem_of_bind. cbn [fst snd] in Hin.
    exists root, files. split; [done|].
    apply elem_of_cons in Hin as [->|Hin]; [by left|]. right.
    apply list_elem_of_fmap in Hin as (f & -> & Hf).
    apply list_elem_of_filter in Hf as [Hgo Hf]. exists f.
    by rewrite elem_of_sorted in Hf.
  - induction walk as [|[root files] walk' IH]; [done|].
    rewrite !bind_cons, !length_app, IH. cbn [fst snd length].
    rewrite length_fmap, (sorted_filter (fun f => endswith f ".go" = true)).
    rewrite (Permutation_length (sorted_Permutation _)). lia.
Qed.

Lemma tree_lines_only_go self walk :
  tree_lines basename sep self (only_go walk) = tree_lines basename sep self walk.
Proof.
  unfold tree_lines, only_go. induction walk as [|[root files] walk' IH]; [done|].
  rewrite fmap_cons, !bind_cons, IH. cbn [fst snd]. do 3 f_equal.
  rewrite (filter_fst_fmap (fun f => endswith f ".go")).
  rewrite !(sorted_filter (fun f => endswith f ".go" = true)).
  by rewrite filter_idemp.
Qed.

Lemma print_analysis_only_go self walk :
  print_analysis relpath basename sep self (only_go walk) =
  print_analysis relpath basename sep self walk.
Proof.
  unfold print_analysis. by rewrite !print_tree_Ok, tree_lines_only_go.
Qed.

(** X17.  The outcome of [main] is the same when the files whose name does
    not end in [.go] are taken out of the walk: they are neither analysed nor
    listed. *)
Theorem main_sees_go_files_only walk :
  main relpath basename sep path_join (only_go walk) =
  main relpath basename sep path_join walk.
Proof.
  unfold main. rewrite analyze_directory_only_go.
  destruct (analyze_directory relpath path_join (init project_root) walk); [|done].
  simpl. apply print_analysis_only_go.
Qed.
End TreeFacts.

(** The directory [/src/pkg/sub] is two levels below [/src]. *)
Lemma tree_level_witness :
  tree_level "/" (init "/src") ("/src" +:+ "/pkg/sub") = count_sep "/" "/pkg/sub" /\
  count_sep "/" "/pkg/sub" = 2.
Proof.
  split; [|reflexivity].
  apply (tree_level_below_root "/" (init "/src") "/pkg/sub"); [done|].
  intros pre post H.
  do 8 (destruct pre as [|? pre]; [discriminate H|injection H as _ H]).
  destruct pre; discriminate H.
Defined.

(** * Where the scan stands *)

(** ** The positions of a scan *)

Lemma reaches_suffix ts content rest : reaches ts content rest -> rest `suffix_of` content.
Proof.
  induction 1 as [|a rest _ IH _|rest m _ IH Hm _]; [done| |].
  - etrans; [|exact IH]. by apply suffix_cons_r.
  - etrans; [|exact IH]. apply match_at_sound in Hm as (w & Hw & _).
    by exists w.
Qed.

Lemma reaches_trans ts s1 s2 s3 :
  reaches ts s1 s2 -> reaches ts s2 s3 -> reaches ts s1 s3.
Proof.
  intros H12. induction 1 as [|a rest _ IH Hn|rest m _ IH Hm Hlen]; [done| |].
  - by eapply reaches_step.
  - by eapply reaches_match.
Qed.

(** What was found before the position the scan stands at, and what is found
    from there on. *)
Lemma finditer_reaches ts content rest :
  reaches ts content rest ->
  exists before, finditer ts content = before ++ finditer ts rest.
Proof.
  induction 1 as [|a rest _ [before IH] Hn|rest m _ [before IH] Hm Hlen].
  - by exists [].
  - exists before. by rewrite IH, finditer_no_match.
  - exists (before ++ [m]). rewrite IH, (finditer_match _ _ _ Hm Hlen).
    by rewrite <- (assoc_L (++)).
Qed.

Lemma finditer_reaches_elem ts content rest m :
  reaches ts content rest -> match_at ts rest = Some m -> m ∈ finditer ts content.
Proof.
  intros [before ->]%finditer_reaches Hm.
  destruct (finditer_first _ _ _ Hm) as [l ->]. set_solver.
Qed.

Lemma finditer_reached_from ts content s m :
  mandatory ts = true ->
  reaches ts content s -> m ∈ finditer ts s ->
  exists rest, reaches ts content rest /\ match_at ts rest = Some m.
Proof.
  intros Hts. remember (length s) as n eqn:Hn. revert s Hn.
  induction n as [n IH] using lt_wf_ind. intros s -> Hs Hin.
  destruct (match_at ts s) as [m0|] eqn:Hm.
  - pose proof (match_at_consumes _ _ _ Hts Hm) as Hlen.
    rewrite (finditer_match _ _ _ Hm Hlen) in Hin.
    apply elem_of_cons in Hin as [->|Hin]; [eauto|].
    eapply (IH _ Hlen); [done| |done]. by eapply reaches_match.
  - destruct s as [|a s].
    + rewrite finditer_empty in Hin by done. by apply elem_of_nil in Hin.
    + rewrite finditer_no_match in Hin by done.
      eapply (IH (length s)); [simpl; lia|done| |done]. by eapply reaches_step.
Qed.

(** The matches [finditer] yields are those at the positions of the scan. *)
Lemma finditer_reached ts content m :
  mandatory ts = true ->
  m ∈ finditer ts content <->
  exists rest, reaches ts content rest /\ match_at ts rest = Some m.
Proof.
  intros Hts. split.
  - apply finditer_reached_from; [done|constructor].
  - intros (rest & Hr & Hm). by eapply finditer_reaches_elem.
Qed.

Lemma reaches_no_match_in ts n s :
  no_match_in ts n s = true -> reaches ts s (drop n s).
Proof.
  revert s. induction n as [|n IH]; intros s H; [constructor|].
  destruct s as [|a s]; [constructor|]. simpl in *.
  destruct (match_at ts (a :: s)) eqn:Hm; [done|].
  eapply reaches_trans; [|by apply IH].
  eapply reaches_step; [constructor|done].
Qed.

Lemma reaches_prefix ts pre s :
  (forall a b, pre = a ++ b -> b <> [] -> match_at ts (b ++ s) = None) ->
  reaches ts (pre ++ s) s.
Proof.
  induction pre as [|x pre IH]; intros Hno; [constructor|].
  eapply reaches_trans; [|apply IH].
  - simpl. eapply reaches_step; [constructor|]. by apply (Hno [] (x :: pre)).
  - intros a b -> Hb. by apply (Hno (x :: a) b).
Qed.

(** Before the first occurrence of the keyword a pattern starts with, nothing
    matches: the scan stands at that occurrence. *)
Lemma reaches_first_keyword kw ts pre rest :
  kw = "func" \/ kw = "type" \/ kw = "import" ->
  ~ occurs kw pre ->
  reaches (lit kw ++ ts) (pre ++ chars kw ++ rest) (chars kw ++ rest).
Proof.
  intros Hkw Hno. apply reaches_prefix. intros a b -> Hb.
  destruct (match_at _ _) as [m|] eqn:Hm; [exfalso|done].
  apply match_at_keyword in Hm as [t Ht]. apply Hno.
  destruct Hkw as [->|[->| ->]];
    destruct b as [|b1 [|b2 [|b3 [|b4 [|b5 [|b6 b]]]]]]; simplify_eq/=;
    by (exists a; eexists).
Qed.

Lemma no_match_in_spec ts n s pre rest :
  no_match_in ts n s = true -> n <= length s -> s = pre ++ rest -> length pre < n ->
  match_at ts rest = None.
Proof.
  revert s pre. induction n as [|n IH]; intros s pre H Hn Hs Hlen; [lia|].
  destruct s as [|a s]; [simpl in Hn; lia|]. simpl in H, Hn.
  destruct (match_at ts (a :: s)) eqn:Hm; [done|].
  destruct pre as [|b pre]; simpl in Hs, Hlen; [by rewrite <- Hs|].
  injection Hs as -> ->. apply (IH (pre ++ rest) pre); [done|lia|done|lia].
Qed.

(** ** Declarations and signatures where the scan stands *)


Lemma str_inj t1 t2 : str t1 = str t2 -> t1 = t2.
Proof.
  unfold str. intros H.
  by rewrite <- (list_ascii_of_string_of_list_ascii t1), H,
    list_ascii_of_string_of_list_ascii.
Qed.




Section ScanClaims.
Variable relpath : string -> string -> string.


(** C5, as amended.  On ASCII text: the Methods list of a type gains the
    method name of every match of the method pattern with that receiver type,
    once per match and in order; a signature with any receiver variable, with
    or without the pointer marker, is matched where it starts, with the
    receiver type as key; the matches are those at the positions the scan
    stands at; a signature the scan stands at (one that does not lie
    inside an earlier match) is recorded, after the methods found before
    it; and the scan stands at the first [func] of the text. *)
Theorem method_appended_per_match self file_path content :
  ascii_text content ->
  exists self', analyze_file relpath self file_path content = Ok self' /\
    (forall type_name,
       methods self' !! type_name =
       match methods_for type_name (method_sigs content) with
       | [] => methods self !! type_name
       | ms => Some (default [] (methods self !! type_name) ++ ms)
       end) /\
    (forall v star ty mn post,
       ascii_text post ->
       v <> [] -> all_in CWord v -> star = [] \/ star = chars "*" ->
       ty <> [] -> all_in CWord ty -> mn <> [] -> all_in CWord mn -> stops CWord post ->
       match_at method_re (signature v star ty mn ++ post) =
       Some {| groups := [v; ty; mn]; after := post |}) /\
    (forall m,
       m ∈ finditer method_re content <->
       exists rest, reaches method_re content rest /\ match_at method_re rest = Some m) /\
    (forall pre v star ty mn post,
       content = pre ++ signature v star ty mn ++ post ->
       reaches method_re content (signature v star ty mn ++ post) ->
       v <> [] -> all_in CWord v -> star = [] \/ star = chars "*" ->
       ty <> [] -> all_in CWord ty -> mn <> [] -> all_in CWord mn -> stops CWord post ->
       exists earlier later,
         methods self' !! str ty =
         Some (default [] (methods self !! str ty) ++ earlier ++ str mn :: later)) /\
    (forall pre rest,
       content = pre ++ chars "func" ++ rest -> ~ occurs "func" pre ->
       reaches method_re content (chars "func" ++ rest)).
Proof.
  intros _. eexists. split; [apply analyze_file_Ok|].
  cbn [analyze_file_result methods]. split; [|split; [|split; [|split]]].
  - intros ty. apply append_methods_lookup.
  - intros v star ty mn post _. apply signature_match_at.
  - intros m. by apply finditer_reached.
  - intros pre v star ty mn post _ Hr Hvn Hv Hstar Htyn Hty Hmnn Hmn Hpost.
    rewrite append_methods_lookup. unfold method_sigs.
    apply finditer_reaches in Hr as [before ->].
    destruct (finditer_first method_re (signature v star ty mn ++ post)
                {| groups := [v; ty; mn]; after := post |}) as [l ->].
    { by apply signature_match_at. }
    rewrite fmap_app, fmap_cons. unfold grp at 2 3.
    cbn [groups lookup list_lookup default].
    unfold methods_for. rewrite filter_app, filter_cons_True by done.
    rewrite fmap_app, fmap_cons. cbn [snd].
    destruct ((filter _ _).*2 ++ _) as [|x xs] eqn:Heq.
    { by apply app_eq_nil in Heq as [_ ?]. }
    rewrite <- Heq. eauto.
  - intros pre rest -> Hno. apply (reaches_first_keyword "func"); auto.
Qed.
End ScanClaims.


Lemma reaches_over_match ts s m :
  match_at ts s = Some m -> length (after m) < length s -> reaches ts s (after m).
Proof. intros Hm Hlen. eapply reaches_match; [constructor|done..]. Qed.

(** The scan of the method pattern over [second_go] stands at the third
    signature: the two before it were matched and left behind. *)
Lemma scan_stands_at_third_signature :
  reaches method_re second_go (drop 221 second_go).
Proof.
  eapply reaches_trans; [apply (reaches_no_match_in _ 94); by vm_compute|].
  eapply reaches_trans.
  { apply (reaches_over_match _ _ {| groups := [chars "s"; chars "Square"; chars "Area"];
                                     after := drop 115 second_go |});
      [by vm_compute|vm_compute; lia]. }
  cbn [after].
  eapply reaches_trans; [apply (reaches_no_match_in _ 39); by vm_compute|].
  eapply reaches_trans.
  { apply (reaches_over_match _ _ {| groups := [chars "c"; chars "Circle"; chars "Area"];
                                     after := drop 174 second_go |});
      [by vm_compute|vm_compute; lia]. }
  cbn [after].
  change (drop 221 second_go) with (drop 47 (drop 174 second_go)).
  apply reaches_no_match_in. by vm_compute.
Qed.

(** A file with three methods, two of them of [Square]: the second method of
    [Square] is recorded after the first. *)
Lemma method_appended_witness :
  ascii_text second_go /\
  exists self',
    analyze_file example_relpath (init "/src") "/src/shapes.go" second_go = Ok self' /\
    methods self' !! "Square" = Some ["Area"; "Perimeter"] /\
    methods self' !! "Circle" = Some ["Area"] /\
    exists earlier later,
      methods self' !! "Square" = Some ([] ++ earlier ++ "Perimeter" :: later).
Proof.
  split; [ascii_run|].
  destruct (method_appended_per_match example_relpath (init "/src") "/src/shapes.go"
              second_go) as (self' & Hrun & Hall & _ & _ & Hsig & _); [ascii_run|].
  exists self'. split; [exact Hrun|]. split; [|split].
  - rewrite Hall. by vm_compute.
  - rewrite Hall. by vm_compute.
  - apply (Hsig (take 221 second_go) (chars "s") [] (chars "Square") (chars "Perimeter")
             (drop 246 second_go));
      [by vm_compute| |done|class_run|by left|done|class_run|done|class_run|
       by vm_compute].
    exact scan_stands_at_third_signature.
Defined.

(** ** Import blocks and the quoted strings inside them *)

Lemma lazy_min {R} p (k : text -> option R) w s' r :
  Forall (fun a => p a = true) w -> k s' = Some r ->
  (forall w1 w2, w = w1 ++ w2 -> w2 <> [] -> k (w2 ++ s') = None) ->
  lazy p k (w ++ s') = Some r.
Proof.
  induction w as [|a w IH]; intros Hw Hk Hmin.
  - simpl. destruct s'; simpl; by rewrite Hk.
  - pose proof (Hmin [] (a :: w) eq_refl ltac:(done)) as H0. simpl in *. rewrite H0.
    apply Forall_cons_1 in Hw as [-> Hw]. apply IH; [done..|].
    intros w1 w2 -> Hne. by apply (Hmin (a :: w1) w2).
Qed.

Lemma import_match_at ws1 ws2 block ws3 post :
  all_in CSpace ws1 -> all_in CSpace ws2 -> all_in CSpace ws3 ->
  block <> [] -> (")"%char ∉ block) -> stops CSpace block ->
  (forall b x, block = b ++ [x] -> is_space x = false) ->
  match_at import_re (import_text ws1 ws2 block ws3 ++ post) =
  Some {| groups := [block]; after := post |}.
Proof.
  intros Hws1 Hws2 Hws3 Hbn Hclose Hfirst Hlast.
  unfold match_at, import_re, import_text. rewrite <- !(assoc_L (++)).
  apply mtoks_lit. cbn [app].
  apply mtoks_star_max; [done|reflexivity|].
  apply mtoks_lit. cbn [app].
  apply mtoks_star_max; [done| |].
  { destruct block; [done|exact Hfirst]. }
  cbn [mtoks matoms matom].
  assert (mtoks (T (Star CSpace) :: lit ")") [block] (ws3 ++ chars ")" ++ post) =
          Some {| groups := [block]; after := post |}) as Htail.
  { apply mtoks_star_max; [done|reflexivity|]. by apply (mtoks_lit ")" []). }
  apply lazy_min.
  - by apply Forall_forall.
  - by rewrite captured_app.
  - intros w1 w2 -> Hne.
    match goal with |- ?x = None => destruct x as [m|] eqn:Hm end; [exfalso|done].
    apply (import_tail_sound [_]) in Hm as (u & Hu & Heq & _).
    assert (forall k, u = w2 ++ k -> False) as Hspaces.
    { intros k ->. destruct (exists_last Hne) as (b & x & ->).
      apply Forall_app in Hu as [Hu _]. apply Forall_app in Hu as [_ Hu].
      apply Forall_cons_1 in Hu as [Hx _]. simpl in Hx.
      assert (is_space x = false) as Hf
        by (apply (Hlast (w1 ++ b)); by rewrite <- (assoc_L (++))).
      congruence. }
    apply app_eq_inv in Heq as [(k & -> & Hk)|(k & -> & Hk)].
    + destruct k as [|c k].
      * apply (Hspaces []). by rewrite !(right_id_L [] (++)).
      * simpl in Hk. injection Hk as <- _. apply Hclose.
        rewrite !elem_of_app. right. right. left.
    + by apply (Hspaces k).
Qed.

Lemma quoted_match_at p rest :
  p <> [] -> (dquote ∉ p) ->
  match_at quoted_re (dquote :: p ++ dquote :: rest) =
  Some {| groups := [p]; after := rest |}.
Proof.
  intros Hpn Hp. unfold match_at, quoted_re.
  change (matom (One (CChar dquote))
            (mtoks [Grp [Plus (CNot [dquote])]; T (One (CChar dquote))] [])
            (dquote :: p ++ dquote :: rest) =
          Some {| groups := [p]; after := rest |}).
  apply matom_one; [by vm_compute|].
  apply mtoks_group_plus_max; [done| |by vm_compute|].
  { unfold all_in. apply Forall_forall. intros x Hx. simpl.
    destruct (Ascii.eqb_spec x dquote); [by subst|done]. }
  change (matom (One (CChar dquote)) (mtoks [] [p]) (dquote :: rest) =
          Some {| groups := [p]; after := rest |}).
  by apply matom_one; [by vm_compute|].
Qed.

Lemma quoted_needs_quote s m : match_at quoted_re s = Some m -> dquote ∈ s.
Proof.
  unfold match_at, quoted_re. cbn [mtoks matom]. destruct s as [|x s]; [done|].
  simpl. destruct (Ascii.eqb_spec x dquote) as [->|]; [|done]. intros _. left.
Qed.

Lemma quoted_none_without_quote s : (dquote ∉ s) -> finditer quoted_re s = [].
Proof.
  intros Hs. apply finditer_nil, search_None. intros pre rest ->.
  destruct (match_at quoted_re rest) as [m|] eqn:Hm; [|done].
  apply quoted_needs_quote in Hm. destruct Hs. apply elem_of_app. by right.
Qed.

(** The quoted strings of a block of the usual shape are found, one after the
    other. *)
Lemma quoted_items_found items tail :
  Forall (fun e => (dquote ∉ e.1) /\ e.2 <> [] /\ (dquote ∉ e.2)) items ->
  (dquote ∉ tail) ->
  (fun imp => grp imp 0) <$> finditer quoted_re (quoted_items items ++ tail) = items.*2.
Proof.
  intros Hitems Htail. induction Hitems as [|[sp p] items (Hsp & Hpn & Hp) _ IH].
  - simpl. by rewrite quoted_none_without_quote.
  - unfold quoted_items. rewrite bind_cons. fold (quoted_items items).
    cbn [fst snd]. rewrite <- !(assoc_L (++)).
    rewrite finditer_skip_prefix.
    2:{ intros a b -> Hb. destruct (match_at quoted_re _) as [m|] eqn:Hm; [|done].
        destruct b as [|x b]; [done|]. unfold match_at, quoted_re in Hm.
        cbn [mtoks matom app] in Hm. simpl in Hm.
        destruct (Ascii.eqb_spec x dquote) as [->|]; [|done].
        destruct Hsp. apply elem_of_app. right. left. }
    cbn [app]. rewrite <- (assoc_L (++)). cbn [app].
    rewrite (finditer_match _ _ _ (quoted_match_at p _ Hpn Hp)).
    2:{ simpl. rewrite !length_app. simpl. rewrite !length_app. lia. }
    rewrite fmap_cons. cbn [after fmap]. by rewrite IH.
Qed.

Lemma quoted_re_text w caps :
  pat_den quoted_re w caps ->
  exists g, w = dquote :: g ++ [dquote] /\ caps = [g] /\ g <> [] /\ (dquote ∉ g).
Proof.
  intros Hd. pose proof Hd as (g & Hc & Hgn & Hg)%quoted_re_den.
  unfold quoted_re in Hd. cbn [pat_den atom_den] in Hd.
  destruct Hd as (w1 & w2 & -> & (x & -> & Hx) & g' & w3 & caps' & -> & _ &
                  (w4 & w5 & -> & (y & -> & Hy) & [-> ->]) & Hcaps).
  apply in_class_CChar in Hx as ->. apply in_class_CChar in Hy as ->.
  rewrite Hc in Hcaps. injection Hcaps as ->. exists g'. by rewrite (right_id_L [] (++)).
Qed.

(** Every import path is a quoted string of a matched block. *)
Lemma import_path_quoted content i :
  i ∈ import_paths content ->
  exists block pre p post,
    block ∈ findall import_re content /\
    block = pre ++ dquote :: p ++ dquote :: post /\
    i = str p /\ p <> [] /\ (dquote ∉ p).
Proof.
  unfold import_paths. intros (block & Hi & Hb)%list_elem_of_bind.
  apply list_elem_of_fmap in Hi as (imp & -> & Himp).
  apply finditer_elem in Himp as (pre & rest & -> & Himp).
  apply match_at_sound in Himp as (w & -> & Hd).
  apply quoted_re_text in Hd as (g & -> & Hc & Hgn & Hg).
  exists (pre ++ (dquote :: g ++ [dquote]) ++ after imp), pre, g, (after imp).
  split; [done|]. split; [simpl; by rewrite <- !(assoc_L (++))|].
  unfold grp. by rewrite Hc.
Qed.

Lemma import_paths_items content block items tail e :
  block ∈ findall import_re content ->
  block = quoted_items items ++ tail ->
  Forall (fun e => (dquote ∉ e.1) /\ e.2 <> [] /\ (dquote ∉ e.2)) items ->
  (dquote ∉ tail) ->
  e ∈ items -> str e.2 ∈ import_paths content.
Proof.
  intros Hb -> Hitems Htail He. unfold import_paths. apply list_elem_of_bind.
  eexists. split; [|exact Hb].
  rewrite (list_fmap_compose (fun imp => grp imp 0) str).
  rewrite quoted_items_found by done.
  apply list_elem_of_fmap. exists e.2. split; [done|].
  apply list_elem_of_fmap. by exists e.
Qed.

Lemma import_paths_none content :
  (forall block, block ∈ findall import_re content -> dquote ∉ block) ->
  import_paths content = [].
Proof.
  unfold import_paths. intros Hno.
  induction (findall import_re content) as [|block blocks IH]; [done|].
  rewrite bind_cons, quoted_none_without_quote by (apply Hno; left).
  simpl. apply IH. intros b Hb. apply Hno. by right.
Qed.

Lemma import_block_found content ws1 ws2 block ws3 post :
  reaches import_re content (import_text ws1 ws2 block ws3 ++ post) ->
  all_in CSpace ws1 -> all_in CSpace ws2 -> all_in CSpace ws3 ->
  block <> [] -> (")"%char ∉ block) -> stops CSpace block ->
  (forall b x, block = b ++ [x] -> is_space x = false) ->
  block ∈ findall import_re content.
Proof.
  intros Hr Hws1 Hws2 Hws3 Hbn Hclose Hfirst Hlast.
  unfold findall. apply list_elem_of_fmap.
  exists {| groups := [block]; after := post |}. split; [done|].
  eapply finditer_reaches_elem; [exact Hr|]. by apply import_match_at.
Qed.

Section ImportClaim.
Variable relpath : string -> string -> string.

(** C3, as amended.  On ASCII text: when no import block occurs in the text,
    Imports is left as it was.  When one occurs, the entry of the file's path is set, to a set
    that may be empty: each of its elements is a string that stands between
    double quotes in a matched block; the quoted strings of a block that is a
    sequence of quoted strings are all in it; and it is empty when no matched
    block holds a double quote.  An import block the scan stands at, trimmed
    and without closing parenthesis, is a matched block; the scan stands at
    the first [import] of the text. *)
Theorem imports_entry_iff_block_matched self file_path content :
  ascii_text content ->
  exists self', analyze_file relpath self file_path content = Ok self' /\
    ((forall pre rest, content = pre ++ rest -> ~ import_block rest) ->
     imports self' = imports self) /\
    ((exists pre rest, content = pre ++ rest /\ import_block rest) ->
     exists paths,
       imports self' = <[file_path := paths]> (imports self) /\
       (forall i, i ∈ paths ->
          exists block pre p post,
            block ∈ findall import_re content /\
            block = pre ++ dquote :: p ++ dquote :: post /\
            i = str p /\ p <> [] /\ (dquote ∉ p)) /\
       (forall block items tail,
          block ∈ findall import_re content ->
          block = quoted_items items ++ tail ->
          Forall (fun e => (dquote ∉ e.1) /\ e.2 <> [] /\ (dquote ∉ e.2)) items ->
          (dquote ∉ tail) ->
          forall e, e ∈ items -> str e.2 ∈ paths) /\
       ((forall block, block ∈ findall import_re content -> dquote ∉ block) ->
        paths = ∅)) /\
    (forall pre ws1 ws2 block ws3 post,
       content = pre ++ import_text ws1 ws2 block ws3 ++ post ->
       reaches import_re content (import_text ws1 ws2 block ws3 ++ post) ->
       all_in CSpace ws1 -> all_in CSpace ws2 -> all_in CSpace ws3 ->
       block <> [] -> (")"%char ∉ block) -> stops CSpace block ->
       (forall b x, block = b ++ [x] -> is_space x = false) ->
       block ∈ findall import_re content) /\
    (forall pre rest,
       content = pre ++ chars "import" ++ rest -> ~ occurs "import" pre ->
       reaches import_re content (chars "import" ++ rest)).
Proof.
  intros _. eexists. split; [apply analyze_file_Ok|].
  cbn [analyze_file_result imports]. split; [|split; [|split]].
  - intros Hno. unfold findall.
    destruct (finditer import_re content) as [|m ms] eqn:Hf; [done|].
    assert (m ∈ finditer import_re content) as Hin by (rewrite Hf; left).
    apply finditer_elem in Hin as (pre & rest & -> & Hm).
    destruct (Hno pre rest); [done|]. apply import_block_match. eauto.
  - intros (pre & rest & -> & Hb). exists (list_to_set (import_paths (pre ++ rest))).
    split; [|split; [|split]].
    + apply import_block_match in Hb. unfold findall.
      destruct (finditer import_re (pre ++ rest)) as [|m ms] eqn:Hf; [|done].
      apply finditer_nil in Hf. rewrite search_None in Hf.
      rewrite (Hf pre rest) in Hb by done. by destruct Hb.
    + intros i Hi%elem_of_list_to_set. by apply import_path_quoted.
    + intros block items tail Hblock Heq Hitems Htail e He.
      apply elem_of_list_to_set. by eapply import_paths_items.
    + intros Hno. by rewrite import_paths_none.
  - intros pre ws1 ws2 block ws3 post _. apply import_block_found.
  - intros pre rest -> Hno. apply (reaches_first_keyword "import"); auto.
Qed.
End ImportClaim.

(** The import block of [square_go] with its two paths. *)
Lemma imports_entry_witness :
  ascii_text square_go /\
  exists self' paths,
    analyze_file example_relpath (init "/src") "/src/shapes/square.go" square_go
      = Ok self' /\
    imports self' !! "/src/shapes/square.go" = Some paths /\
    "fmt" ∈ paths /\ "os" ∈ paths /\
    forall i, i ∈ paths -> exists p, i = str p /\ p <> [] /\ (dquote ∉ p).
Proof.
  split; [ascii_run|].
  destruct (imports_entry_iff_block_matched example_relpath (init "/src")
              "/src/shapes/square.go" square_go)
    as (self' & Hrun & _ & Hset & Hblock & _); [ascii_run|].
  destruct Hset as (paths & Hpaths & Hsound & Hitems & _).
  { exists (take 16 square_go), (drop 16 square_go). split; [by vm_compute|].
    exists (chars " "), (drop 24 (take 38 square_go)), (drop 39 square_go).
    split; [by vm_compute|class_run]. }
  exists self', paths. split; [exact Hrun|]. split.
  { rewrite Hpaths. by rewrite lookup_insert_eq. }
  assert (quoted "fmt" ++ ["010"; "009"]%char ++ quoted "os"
            ∈ findall import_re square_go) as Hin.
  { apply (Hblock (take 16 square_go) (chars " ") ["010"; "009"]%char _ ["010"%char]
             (drop 39 square_go));
      [by vm_compute| |class_run|class_run|class_run|done|compute_done|by vm_compute|].
    - change (reaches import_re square_go (drop 16 square_go)).
      apply reaches_no_match_in. by vm_compute.
    - intros b x Heq. apply (f_equal (@last _)) in Heq.
      rewrite last_snoc in Heq. vm_compute in Heq. by injection Heq as <-. }
  assert (Forall (fun e : text * text => (dquote ∉ e.1) /\ e.2 <> [] /\ (dquote ∉ e.2))
            [([], chars "fmt"); (["010"; "009"]%char, chars "os")]) as Hshape
    by (repeat constructor; compute_done).
  assert (dquote ∉ @nil ascii) as Htail by compute_done.
  split; [|split].
  - exact (Hitems _ [([], chars "fmt"); (["010"; "009"]%char, chars "os")] []
             Hin eq_refl Hshape Htail ([], chars "fmt") ltac:(left)).
  - exact (Hitems _ [([], chars "fmt"); (["010"; "009"]%char, chars "os")] []
             Hin eq_refl Hshape Htail (["010"; "009"]%char, chars "os")
             ltac:(right; left)).
  - intros i Hi. apply Hsound in Hi as (block & pre & p & post & _ & _ & ? & ? & ?).
    eauto.
Defined.

(** ** Names that the files define alike *)

Lemma last_defined_agree {A V} (get : A -> option V) l :
  (forall x, x ∈ l -> get x = None) ->
  forall acc, last_defined get acc l = acc.
Proof.
  unfold last_defined. induction l as [|x l IH]; intros Hno acc; [done|].
  simpl. rewrite (Hno x) by left. apply IH. intros y Hy. apply Hno. by right.
Qed.

Lemma last_defined_some {A V} (get : A -> option V) l v :
  (forall x, x ∈ l -> get x = None \/ get x = Some v) ->
  (exists x, x ∈ l /\ get x = Some v) ->
  forall acc, last_defined get acc l = Some v.
Proof.
  unfold last_defined. induction l as [|x l IH] using rev_ind; intros Hall Hex acc.
  - destruct Hex as (x & Hx & _). by apply elem_of_nil in Hx.
  - rewrite foldl_app. simpl. destruct (Hall x) as [Hx|Hx]; [set_solver| |by rewrite Hx].
    rewrite Hx. apply IH.
    + intros y Hy. apply Hall. set_solver.
    + destruct Hex as (y & Hy & Hv). apply elem_of_app in Hy as [Hy|Hy]; [eauto|].
      apply list_elem_of_singleton in Hy as ->. congruence.
Qed.

(** When the elements that define the name define it alike, the order does
    not matter. *)
Lemma last_defined_permutation {A V} (get : A -> option V) l1 l2 acc :
  l1 ≡ₚ l2 ->
  (forall x y, x ∈ l1 -> y ∈ l1 -> is_Some (get x) -> is_Some (get y) -> get x = get y) ->
  last_defined get acc l1 = last_defined get acc l2.
Proof.
  intros Hperm Hsame.
  destruct (decide (Exists (fun x => is_Some (get x)) l1)) as [Hex|Hno].
  - apply Exists_exists in Hex as (x0 & Hx0 & [v Hv]).
    rewrite (last_defined_some get l1 v), (last_defined_some get l2 v); [done|..].
    + intros y Hy. rewrite <- Hperm in Hy. destruct (get y) as [w|] eqn:Hy'; [|by left].
      right. rewrite <- Hy', <- Hv. apply Hsame; [done..|by rewrite Hy'|by rewrite Hv].
    + exists x0. by rewrite <- Hperm.
    + intros y Hy. destruct (get y) as [w|] eqn:Hy'; [|by left].
      right. rewrite <- Hy', <- Hv. apply Hsame; [done..|by rewrite Hy'|by rewrite Hv].
    + eauto.
  - rewrite !last_defined_agree; [done|..].
    + intros x Hx. rewrite <- Hperm in Hx. destruct (get x) eqn:Hg; [|done].
      destruct Hno. apply Exists_exists. exists x. by rewrite Hg.
    + intros x Hx. destruct (get x) eqn:Hg; [|done].
      destruct Hno. apply Exists_exists. exists x. by rewrite Hg.
Qed.

Lemma concat_permutation_single {A B} (g : A -> list B) l1 l2 :
  l1 ≡ₚ l2 ->
  (forall x y, x ∈ l1 -> y ∈ l1 -> g x <> [] -> g y <> [] -> x = y) ->
  concat (g <$> l1) = concat (g <$> l2).
Proof.
  induction 1 as [|x l l' Hperm IH|x y l|l l' l'' H1 IH1 H2 IH2]; intros Hone.
  - done.
  - simpl. f_equal. apply IH. intros a b Ha Hb. apply Hone; by right.
  - simpl. rewrite !(assoc_L (++)). f_equal.
    destruct (g x) as [|b bs] eqn:Hx; [by rewrite (right_id_L [] (++))|].
    destruct (g y) as [|c cs] eqn:Hy; [by rewrite (right_id_L [] (++))|].
    assert (y = x) as ->; [|by rewrite Hx in Hy; simplify_eq].
    apply Hone; [left|right; left|by rewrite Hy|by rewrite Hx].
  - rewrite IH1 by done. apply IH2. intros a b Ha Hb. apply Hone; by rewrite H1.
Qed.

Section OrderFacts.
Variable relpath : string -> string -> string.

Lemma foldl_visit_structs_last l s name :
  structs (foldl (visit relpath) s l) !! name =
  last_defined (fun f => file_structs f.2 !! name) (structs s !! name) l.
Proof.
  unfold last_defined. revert s. induction l as [|f l IH]; intros s; [done|].
  simpl. rewrite IH. f_equal. unfold visit. cbn [analyze_file_result structs].
  by rewrite put_decls_lookup.
Qed.

Lemma foldl_visit_interfaces_last l s name :
  interfaces (foldl (visit relpath) s l) !! name =
  last_defined (fun f => file_interfaces f.2 !! name) (interfaces s !! name) l.
Proof.
  unfold last_defined. revert s. induction l as [|f l IH]; intros s; [done|].
  simpl. rewrite IH. f_equal. unfold visit. cbn [analyze_file_result interfaces].
  by rewrite put_decls_lookup.
Qed.
End OrderFacts.

Section OrderClaim.
Variable relpath : string -> string -> string.
Variable path_join : string -> string -> string.

(** C2, as amended.  Two visitation orders of the same files (distinct paths)
    agree on Packages, on Imports, on the keys of Methods, Interfaces and
    Structs, and on every Methods list up to the order of its elements; they
    agree on the Methods list of a type that at most one file has methods
    for, and on the Interfaces and Structs entry of every name that the files
    which define it define alike. *)
Theorem visitation_order_agreement self walk1 walk2 :
  go_files path_join walk1 ≡ₚ go_files path_join walk2 ->
  NoDup (go_files path_join walk1).*1 ->
  exists s1 s2,
    analyze_directory relpath path_join self walk1 = Ok s1 /\
    analyze_directory relpath path_join self walk2 = Ok s2 /\
    packages s1 = packages s2 /\
    imports s1 = imports s2 /\
    dom (methods s1) = dom (methods s2) /\
    (forall ty, default [] (methods s1 !! ty) ≡ₚ default [] (methods s2 !! ty)) /\
    dom (interfaces s1) = dom (interfaces s2) /\
    dom (structs s1) = dom (structs s2) /\
    (forall ty,
       (forall f g, f ∈ go_files path_join walk1 -> g ∈ go_files path_join walk1 ->
          methods_for ty (method_sigs f.2) <> [] ->
          methods_for ty (method_sigs g.2) <> [] -> f = g) ->
       methods s1 !! ty = methods s2 !! ty) /\
    (forall name,
       (forall f g, f ∈ go_files path_join walk1 -> g ∈ go_files path_join walk1 ->
          is_Some (file_interfaces f.2 !! name) ->
          is_Some (file_interfaces g.2 !! name) ->
          file_interfaces f.2 !! name = file_interfaces g.2 !! name) ->
       interfaces s1 !! name = interfaces s2 !! name) /\
    (forall name,
       (forall f g, f ∈ go_files path_join walk1 -> g ∈ go_files path_join walk1 ->
          is_Some (file_structs f.2 !! name) ->
          is_Some (file_structs g.2 !! name) ->
          file_structs f.2 !! name = file_structs g.2 !! name) ->
       structs s1 !! name = structs s2 !! name).
Proof.
  intros Hperm Hnd. do 2 eexists.
  split; [apply analyze_directory_Ok|]. split; [apply analyze_directory_Ok|].
  destruct (foldl_visit_permutation relpath _ _ self self Hperm Hnd)
    as (_ & Hp & Hi & Hmd & Hml & Hid & Hsd); [done|].
  do 6 (split; [done|]). split; [|split].
  - intros ty Hone.
    assert (default [] (methods (foldl (visit relpath) self (go_files path_join walk1)) !! ty) =
            default [] (methods (foldl (visit relpath) self (go_files path_join walk2)) !! ty))
      as Heq.
    { rewrite !foldl_visit_methods. f_equal.
      by apply (concat_permutation_single
                  (fun f : string * text => methods_for ty (method_sigs f.2))). }
    assert (ty ∈ dom (methods (foldl (visit relpath) self (go_files path_join walk1))) <->
            ty ∈ dom (methods (foldl (visit relpath) self (go_files path_join walk2))))
      as Hdom by (by rewrite Hmd).
    rewrite !elem_of_dom in Hdom.
    destruct (methods (foldl _ _ (go_files path_join walk1)) !! ty) as [l1|] eqn:H1,
             (methods (foldl _ _ (go_files path_join walk2)) !! ty) as [l2|] eqn:H2;
      simpl in Heq; [by subst|..|done].
    + by destruct Hdom as [[? ?] _].
    + by destruct Hdom as [_ [? ?]].
  - intros name Hsame. rewrite !foldl_visit_interfaces_last.
    by apply last_defined_permutation.
  - intros name Hsame. rewrite !foldl_visit_structs_last.
    by apply last_defined_permutation.
Qed.
End OrderClaim.

(** C2, as stated, fails: the same two files in the two orders leave different
    Structs and Interfaces entries for the names both define, and the Methods
    list of [Foo] in two orders. *)
Lemma visitation_order_changes_values :
  go_files example_join walk_order_ab ≡ₚ go_files example_join walk_order_ba /\
  exists s1 s2,
    analyze_directory example_relpath example_join (init "/src") walk_order_ab = Ok s1 /\
    analyze_directory example_relpath example_join (init "/src") walk_order_ba = Ok s2 /\
    structs s1 !! "Foo" = Some ["B"] /\
    structs s2 !! "Foo" = Some ["A"] /\
    interfaces s1 !! "Bar" = Some ["Write"] /\
    interfaces s2 !! "Bar" = Some ["Read"] /\
    methods s1 !! "Foo" = Some ["First"; "Second"] /\
    methods s2 !! "Foo" = Some ["Second"; "First"] /\
    structs s1 <> structs s2 /\ interfaces s1 <> interfaces s2 /\
    methods s1 <> methods s2.
Proof.
  split; [apply perm_swap|].
  do 2 eexists. split; [apply analyze_directory_Ok|].
  split; [apply analyze_directory_Ok|].
  set (s1 := foldl (visit example_relpath) (init "/src")
               (go_files example_join walk_order_ab)).
  set (s2 := foldl (visit example_relpath) (init "/src")
               (go_files example_join walk_order_ba)).
  assert (structs s1 !! "Foo" = Some ["B"]) as Hs1 by (by vm_compute).
  assert (structs s2 !! "Foo" = Some ["A"]) as Hs2 by (by vm_compute).
  assert (interfaces s1 !! "Bar" = Some ["Write"]) as Hi1 by (by vm_compute).
  assert (interfaces s2 !! "Bar" = Some ["Read"]) as Hi2 by (by vm_compute).
  assert (methods s1 !! "Foo" = Some ["First"; "Second"]) as Hm1 by (by vm_compute).
  assert (methods s2 !! "Foo" = Some ["Second"; "First"]) as Hm2 by (by vm_compute).
  do 6 (split; [done|]).
  split; [|split]; intros Heq.
  - rewrite Heq, Hs2 in Hs1. discriminate.
  - rewrite Heq, Hi2 in Hi1. discriminate.
  - rewrite Heq, Hm2 in Hm1. discriminate.
Qed.

(** Two orders of three files: two define the struct [Foo], each its own way,
    and only [square.go] defines [Square] and has methods for it. *)
Lemma visitation_order_witness :
  exists s1 s2,
    analyze_directory example_relpath example_join (init "/src")
      [("/src", [("a.go", foo_a_go); ("square.go", square_go); ("b.go", foo_b_go)])]
      = Ok s1 /\
    analyze_directory example_relpath example_join (init "/src")
      [("/src", [("b.go", foo_b_go); ("a.go", foo_a_go); ("square.go", square_go)])]
      = Ok s2 /\
    packages s1 = packages s2 /\
    imports s1 = imports s2 /\
    dom (methods s1) = dom (methods s2) /\
    dom (interfaces s1) = dom (interfaces s2) /\
    dom (structs s1) = dom (structs s2) /\
    methods s1 !! "Square" = methods s2 !! "Square" /\
    structs s1 !! "Square" = structs s2 !! "Square".
Proof.
  set (files := [("/src/a.go", foo_a_go); ("/src/square.go", square_go);
                 ("/src/b.go", foo_b_go)]).
  assert (forall h : string * text, h ∈ files ->
            h = ("/src/square.go", square_go) \/
            methods_for "Square" (method_sigs h.2) = [] /\
            file_structs h.2 !! "Square" = None) as Honly.
  { intros h Hh. unfold files in Hh.
    apply elem_of_cons in Hh as [->|Hh]; [right; split; by vm_compute|].
    apply elem_of_cons in Hh as [->|Hh]; [by left|].
    apply elem_of_cons in Hh as [->|Hh]; [right; split; by vm_compute|].
    by apply elem_of_nil in Hh. }
  destruct (visitation_order_agreement example_relpath example_join (init "/src")
              [("/src", [("a.go", foo_a_go); ("square.go", square_go); ("b.go", foo_b_go)])]
              [("/src", [("b.go", foo_b_go); ("a.go", foo_a_go); ("square.go", square_go)])])
    as (s1 & s2 & H1 & H2 & Hp & Hi & Hmd & _ & Hid & Hsd & Hm & _ & Hs).
  - change (files ≡ₚ [("/src/b.go", foo_b_go); ("/src/a.go", foo_a_go);
                      ("/src/square.go", square_go)]).
    unfold files. etrans; [apply perm_skip, perm_swap|apply perm_swap].
  - change (NoDup ["/src/a.go"; "/src/square.go"; "/src/b.go"]).
    apply (bool_decide_unpack _). by vm_compute.
  - exists s1, s2. do 7 (split; [exact H1 || exact H2 || done|]). split.
    + apply Hm. change (go_files example_join _) with files.
      intros f g Hf Hg Hfm Hgm.
      destruct (Honly f Hf) as [->|[Hf0 _]]; [|by destruct Hfm].
      destruct (Honly g Hg) as [->|[Hg0 _]]; [reflexivity|by destruct Hgm].
    + apply Hs. change (go_files example_join _) with files.
      intros f g Hf Hg [x Hfx] [y Hgy].
      destruct (Honly f Hf) as [->|[_ Hf0]]; [|congruence].
      destruct (Honly g Hg) as [->|[_ Hg0]]; [reflexivity|congruence].
Defined.

(** A file that starts with a comment: the package is the one of the first
    declaration, [foo]. *)
Lemma package_first_witness :
  ascii_text foo_b_go /\
  exists self',
    analyze_file example_relpath (init "/src") "/src/sub/b.go" foo_b_go = Ok self' /\
    packages self' = <["foo" := {["sub/b.go"]}]> ∅.
Proof.
  split; [ascii_run|].
  destruct (package_from_first_declaration example_relpath (init "/src")
              "/src/sub/b.go" foo_b_go) as (self' & Hrun & _ & Hfirst); [ascii_run|].
  exists self'. split; [exact Hrun|].
  rewrite (Hfirst (take 15 foo_b_go) (chars " ") (chars "foo") (drop 26 foo_b_go));
    [by vm_compute|by vm_compute|done|class_run|done|class_run|by vm_compute|].
  intros pre' rest' Heq Hlen Hd. apply package_decl_match in Hd as [m Hm].
  rewrite (no_match_in_spec package_re 15 foo_b_go pre' rest') in Hm;
    [done|by vm_compute|vm_compute; lia|done|exact Hlen].
Defined.
